(** * Verification of the test-data generators of [gen.cpp]

    The C++ file builds random arrays, samples, trees and connected
    directed graphs on top of testlib's random source [rnd].  This
    development embeds the functions of [gen.cpp] in a small
    state-and-failure monad and proves the properties the specification
    states about them.

    Conventions of the embedding:
    - a C++ [int] (or any other integer type) is a [Z]; signed overflow
      is undefined in C++ and no modelled computation relies on it; the
      one conversion between integer types the code performs (the store
      of a drawn value into a [std::vector<int>] in [genArray]) is
      written out as [int_cast];
    - a [std::vector<T>] or [std::string] is a [list]; [operator[]] does
      no bounds check, so a read or write outside a vector is the outcome
      [Undef]; on a [const std::string] the index [size()] is still a
      defined read, of the terminator (see [sread]);
    - a failed [assert], a testlib failure ([quit]) and the
      [std::length_error] of [std::vector<int> v(n)] with a negative [n]
      all terminate the process: the outcome [Fatal w], where [w] is the
      world at that moment;
    - the world holds the process-wide random source, the [int] objects
      that callers pass by reference, and what was written to
      [std::cerr]. *)

From stdpp Require Import base list list_numbers sorting gmap strings.
From Stdlib Require Import ZArith Lia Permutation Sorted Ascii.

Local Open Scope Z_scope.

(** ** Outcomes *)

Inductive result (W A : Type) : Type :=
| Ret (a : A) (w : W)
| Fatal (w : W)
| Undef.
Arguments Ret {W A} a w.
Arguments Fatal {W A} w.
Arguments Undef {W A}.

(** A directed edge [std::pair<int, int>]: tail, head. *)
Abbreviation edge := (Z * Z)%type.

(** What [operator<<] appends to a stream. *)
Inductive out_item : Type :=
| OStr (s : string)
| ONum (n : Z)
| OChar (c : ascii).

(** ** The random source *)

(** Modelled from the spec: testlib's [rnd] object and its [shuffle]
    ([testlib.h] is included by [gen.cpp] but is not part of the
    sources).  The operations are the capability of section 6 of the
    specification (uniform draw in [[lo, hi]], weighted draw in
    [[lo, hi]] with a bias, permutation of [[0, n)], shuffle) together
    with the composition that section 4.3 describes for [partition];
    [None] is a fatal failure of the library.  The laws are the
    structural part of the contracts of sections 4.1, 4.3 and 7; nothing
    is assumed about distributions. *)
Class RandomSource : Type := {
  rng : Type;
  rnd_next : Z → Z → rng → option (Z * rng);
  rnd_wnext : Z → Z → Z → rng → option (Z * rng);
  rnd_perm : Z → rng → option (list Z * rng);
  rnd_partition : Z → Z → Z → rng → option (list Z * rng);
  rnd_shuffle : ∀ A : Type, list A → rng → list A * rng;

  rnd_next_range : ∀ lo hi r, lo ≤ hi →
    ∃ v r', rnd_next lo hi r = Some (v, r') ∧ lo ≤ v ≤ hi;
  rnd_next_invalid : ∀ lo hi r, hi < lo → rnd_next lo hi r = None;
  rnd_wnext_range : ∀ lo hi t r, lo ≤ hi →
    ∃ v r', rnd_wnext lo hi t r = Some (v, r') ∧ lo ≤ v ≤ hi;
  rnd_wnext_invalid : ∀ lo hi t r, hi < lo → rnd_wnext lo hi t r = None;
  rnd_perm_spec : ∀ n r, 0 ≤ n →
    ∃ p r', rnd_perm n r = Some (p, r') ∧ p ≡ₚ seqZ 0 n;
  rnd_partition_spec : ∀ count len r, 1 ≤ count ≤ len →
    ∃ parts r', rnd_partition count len 1 r = Some (parts, r') ∧
      Z.of_nat (length parts) = count ∧
      Forall (λ x, 1 ≤ x) parts ∧
      foldr Z.add 0 parts = len;
  rnd_partition_invalid : ∀ count len r, count > len ∨ count ≤ 0 →
    rnd_partition count len 1 r = None;
  rnd_shuffle_perm : ∀ A (l : list A) r, (rnd_shuffle A l r).1 ≡ₚ l
}.

(** ** Worlds and the monad of the generators *)

Section Generators.
Context {RS : RandomSource}.

(** [w_mem] maps the address of an [int] object to its value: a
    reference parameter [int &s] is the address [s]. *)
Record world : Type := World {
  w_rnd : rng;
  w_mem : gmap nat Z;
  w_cerr : list out_item
}.

Definition M (A : Type) : Type := world → result world A.

Definition ret {A} (a : A) : M A := λ w, Ret a w.

Definition bind {A B} (c : M A) (k : A → M B) : M B :=
  λ w, match c w with
       | Ret a w' => k a w'
       | Fatal w' => Fatal w'
       | Undef => Undef
       end.

Definition fatal {A} : M A := λ w, Fatal w.
Definition undef {A} : M A := λ _, Undef.

Notation "x <- c ;; k" := (bind c (λ x, k))
  (at level 100, c at next level, right associativity).

(** A [for] loop over the values [l] of its counter, threading the
    variables the body updates. *)
Fixpoint foldM {A St} (body : St → A → M St) (acc : St) (l : list A)
  : M St :=
  match l with
  | [] => ret acc
  | i :: l' => acc' <- body acc i ;; foldM body acc' l'
  end.

(** Calls into the random source. *)
Definition draw {A} (f : rng → option (A * rng)) : M A :=
  λ w, match f (w_rnd w) with
       | Some (a, r') => Ret a (World r' (w_mem w) (w_cerr w))
       | None => Fatal w
       end.

Definition next (lo hi : Z) : M Z := draw (rnd_next lo hi).
Definition wnext (lo hi t : Z) : M Z := draw (rnd_wnext lo hi t).
(** [rnd.next(n)] and [rnd.wnext(n, t)] draw from [[0, n)]. *)
Definition next1 (n : Z) : M Z := next 0 (n - 1).
Definition wnext1 (n t : Z) : M Z := wnext 0 (n - 1) t.
Definition perm (n : Z) : M (list Z) := draw (rnd_perm n).
Definition partition (size sum min_part : Z) : M (list Z) :=
  draw (rnd_partition size sum min_part).
Definition shuffle {A} (l : list A) : M (list A) :=
  λ w, let '(l', r') := rnd_shuffle A l (w_rnd w) in
       Ret l' (World r' (w_mem w) (w_cerr w)).

(** [s = v] for a reference [s]. *)
Definition assign (s : nat) (v : Z) : M unit :=
  λ w, Ret tt (World (w_rnd w) (<[s := v]> (w_mem w)) (w_cerr w)).

(** [std::cerr << ...]. *)
Definition cerr_put (items : list out_item) : M unit :=
  λ w, Ret tt (World (w_rnd w) (w_mem w) (w_cerr w ++ items)).

(** [w'] differs from [w] at most in the state of the random source. *)
Definition same_io (w w' : world) : Prop :=
  w_mem w' = w_mem w ∧ w_cerr w' = w_cerr w.

(** ** Vectors *)

(** [std::vector<T> v(n)]: [n] value-initialised elements; a negative
    [n] converts to a size beyond [max_size()] and the constructor
    throws. *)
Definition vector_new {A} (n : Z) (x : A) : M (list A) :=
  if n <? 0 then fatal else ret (replicate (Z.to_nat n) x).

Definition vget {A} (v : list A) (i : Z) : option A :=
  if i <? 0 then None else v !! Z.to_nat i.

(** [v[i]] as an rvalue. *)
Definition vread {A} (v : list A) (i : Z) : M A :=
  match vget v i with
  | Some x => ret x
  | None => undef
  end.

(** [v[i] = x]. *)
Definition vwrite {A} (v : list A) (i : Z) (x : A) : M (list A) :=
  match vget v i with
  | Some _ => ret (<[Z.to_nat i := x]> v)
  | None => undef
  end.

(** [v[i]++]. *)
Definition vincr (v : list Z) (i : Z) : M (list Z) :=
  d <- vread v i ;; vwrite v i (d + 1).

(** [v[i]] where the index is known to be inside [v]. *)
Definition vat (v : list Z) (i : Z) : Z := default 0 (vget v i).

(** ** [genArray] *)

(** Conversion of an integer value to [int] (32 bits, two's
    complement). *)
Definition int_cast (v : Z) : Z := (v + 2 ^ 31) `mod` 2 ^ 32 - 2 ^ 31.

(** [Min] and [Max] have the integer type [U]; the array is a
    [std::vector<int>] whatever [U] is. *)
Definition genArray (n Min Max t : Z) : M (list Z) :=
  arr <- vector_new n 0 ;;
  foldM (λ arr i, v <- wnext Min Max t ;; vwrite arr i (int_cast v))
        arr (seqZ 0 n).

(** The values of [k] successive calls [rnd.wnext(Min, Max, t)], the
    first call first. *)
Fixpoint wnext_draws (k : nat) (Min Max t : Z) : M (list Z) :=
  match k with
  | O => ret []
  | S k' => v <- wnext Min Max t ;;
            vs <- wnext_draws k' Min Max t ;;
            ret (v :: vs)
  end.

(** ** [sample] *)

(** [sample] is the instance of the template for a [std::vector];
    [sample_string] below is the one for a [std::string], which differs
    in the reads of the container only. *)

(** The body of the loop: [x] is [vec[i]] for [i < vec.size()], and
    [st] is [(result, tmp)]. *)
Definition pick {A} (container : list A) (st : list A * Z) (x : Z)
  : M (list A * Z) :=
  idx <- next st.2 (st.2 + x - 1) ;;
  e <- vread container idx ;;
  ret (st.1 ++ [e], st.2 + x).

Definition sample {A} (container : list A) (length num : Z) : M (list A) :=
  vec <- partition num length 1 ;;
  st <- foldM (pick container) ([], 0) vec ;;
  shuffle st.1.

(** [container[i]] on a [const std::string]: the index [size()] is a
    defined read of the terminator ['\0'], an index beyond it is not. *)
Definition sget (s : list ascii) (i : Z) : option ascii :=
  if i =? Z.of_nat (length s) then Some "000"%char else vget s i.

Definition sread (s : list ascii) (i : Z) : M ascii :=
  match sget s i with
  | Some x => ret x
  | None => undef
  end.

Definition pick_string (container : list ascii) (st : list ascii * Z)
    (x : Z) : M (list ascii * Z) :=
  idx <- next st.2 (st.2 + x - 1) ;;
  e <- sread container idx ;;
  ret (st.1 ++ [e], st.2 + x).

Definition sample_string (container : list ascii) (length num : Z)
  : M (list ascii) :=
  vec <- partition num length 1 ;;
  st <- foldM (pick_string container) ([], 0) vec ;;
  shuffle st.1.

(** ** [genTree] *)

(** [std::vector<int> p(n); for (i = 1; i < n; i++) p[i] = rnd.wnext(i, t);]
    (the first three lines of both [genTree] and
    [genConnectedDirectedGraph]). *)
Definition parents (n t : Z) : M (list Z) :=
  p <- vector_new n 0 ;;
  foldM (λ p i, v <- wnext1 i t ;; vwrite p i v) p (seqZ 1 (n - 1)).

(** The body of the second loop of [genTree]: [rnd.next(2)] decides
    the direction of the edge between [perm[i]] and [perm[p[i]]]. *)
Definition tree_step (p pm : list Z) (edges : list edge) (i : Z)
  : M (list edge) :=
  c <- next1 2 ;;
  pi <- vread p i ;;
  a <- vread pm i ;;
  b <- vread pm pi ;;
  if c =? 0 then ret (edges ++ [(b, a)]) else ret (edges ++ [(a, b)]).

Definition genTree (n t : Z) : M (list edge) :=
  p <- parents n t ;;
  pm <- perm n ;;
  edges <- foldM (tree_step p pm) [] (seqZ 1 (n - 1)) ;;
  shuffle edges.

(** ** [genConnectedDirectedGraph] *)

(** The body of the loop over the spanning edges: the edge
    [(perm[p[i]], perm[i])]. *)
Definition span_step (p pm : list Z) (edges : list edge) (i : Z)
  : M (list edge) :=
  pi <- vread p i ;;
  a <- vread pm pi ;;
  b <- vread pm i ;;
  ret (edges ++ [(a, b)]).

(** The body of the loop [for (int i = n; i <= m; ++i)]. *)
Definition extra_step (pm : list Z) (n : Z) (edges : list edge) (i : Z)
  : M (list edge) :=
  node <- sample pm n 2 ;;
  a <- vread node 0 ;;
  b <- vread node 1 ;;
  ret (edges ++ [(a, b)]).

(** [assert(m >= n - 1)] comes first; [s] is the address behind the
    reference parameter. *)
Definition genConnectedDirectedGraph (n m : Z) (s : nat) (t : Z)
  : M (list edge) :=
  if m <? n - 1 then fatal else
  p <- parents n t ;;
  pm <- perm n ;;
  edges <- foldM (span_step p pm) [] (seqZ 1 (n - 1)) ;;
  s0 <- vread pm 0 ;;
  _ <- assign s s0 ;;
  edges <- foldM (extra_step pm n) edges (seqZ n (m - n + 1)) ;;
  shuffle edges.

(** ** [getLeaves] *)

(** In the first loop [e] is [edges[i]] for [i < n - 1], the size of
    [edges]. *)
Definition getLeaves (edges : list edge) : M (list Z) :=
  let n := Z.of_nat (length edges) + 1 in
  deg <- vector_new n 0 ;;
  deg <- foldM (λ deg e, deg <- vincr deg e.1 ;; vincr deg e.2)
         deg edges ;;
  leaf <- foldM (λ leaf i,
            d <- vread deg i ;;
            if d =? 1 then ret (leaf ++ [i]) else ret leaf)
          [] (seqZ 0 n) ;;
  _ <- cerr_put [OStr "number of leaf is ";
                 ONum (Z.of_nat (length leaf)); OChar "010"%char] ;;
  ret leaf.

End Generators.

(** ** Graph notions used by the statements *)

(** [reach E u v]: there is a directed path from [u] to [v] in [E]. *)
Inductive reach (E : list edge) (u : Z) : Z → Prop :=
| reach_refl : reach E u u
| reach_step v w : reach E u v → (v, w) ∈ E → reach E u w.

(** Adjacency in [E] read as an undirected graph, and the paths of
    that graph. *)
Definition adj (E : list edge) (u v : Z) : Prop := (u, v) ∈ E ∨ (v, u) ∈ E.

Inductive joined (E : list edge) (u : Z) : Z → Prop :=
| joined_refl : joined E u u
| joined_step v w : joined E u v → adj E v w → joined E u w.

(** [E] connects the nodes [0 .. n-1]. *)
Definition connects (n : Z) (E : list edge) : Prop :=
  ∀ u v, 0 ≤ u < n → 0 ≤ v < n → joined E u v.

(** [E] has no cycle: whichever edge is taken out, its two ends are no
    longer joined (so there is no self-loop, no doubled edge and no
    longer cycle). *)
Definition acyclic (E : list edge) : Prop :=
  ∀ E1 e E2, E = E1 ++ e :: E2 → ¬ joined (E1 ++ E2) e.1 e.2.

(** The edge of the structural index [j] in a tree whose parent
    function is [par] and whose labels are [lab]: from the parent to the
    child, or in either direction. *)
Definition down_edge (par lab : Z → Z) (j : Z) (e : edge) : Prop :=
  e = (lab (par j), lab j).

Definition tree_edge (par lab : Z → Z) (j : Z) (e : edge) : Prop :=
  e = (lab j, lab (par j)) ∨ e = (lab (par j), lab j).

(** [below n par k i]: the chain of parents from [i] passes through
    [k]. *)
Inductive below (n : Z) (par : Z → Z) (k : Z) : Z → Prop :=
| below_self : below n par k k
| below_child i : 1 ≤ i < n → below n par k (par i) → below n par k i.

(** The node [v] is the label of an index below [k]. *)
Definition hangs (n : Z) (par lab : Z → Z) (k v : Z) : Prop :=
  ∃ i, 0 ≤ i < n ∧ lab i = v ∧ below n par k i.

(** The number of edge ends at [v]. *)
Definition degree (E : list edge) (v : Z) : nat :=
  length (filter (λ e, e.1 = v) E) + length (filter (λ e, e.2 = v) E).

(** Every end of every edge is a node id of [0 .. edges.size()]. *)
Definition ends_in_range (E : list edge) : Prop :=
  Forall (λ e : edge, 0 ≤ e.1 ≤ Z.of_nat (length E) ∧
                      0 ≤ e.2 ≤ Z.of_nat (length E)) E.

(** ** A deterministic random source

    Its draws are read off a tape of integers (an exhausted tape reads
    0): one possible behaviour of the generator. *)
Module Tape.

Definition pop (tp : list Z) : Z * list Z := (hd 0 tp, tl tp).

Definition next (lo hi : Z) (tp : list Z) : option (Z * list Z) :=
  if hi <? lo then None
  else Some (lo + (pop tp).1 `mod` (hi - lo + 1), (pop tp).2).

Definition wnext (lo hi t : Z) (tp : list Z) : option (Z * list Z) :=
  next lo hi tp.

Definition turn {A} (l : list A) (tp : list Z) : list A * list Z :=
  (rotate (Z.to_nat ((pop tp).1 `mod` Z.of_nat (length l))) l, (pop tp).2).

Definition perm (n : Z) (tp : list Z) : option (list Z * list Z) :=
  if n <? 0 then None else Some (turn (seqZ 0 n) tp).

Definition partition (size sum min_part : Z) (tp : list Z)
  : option (list Z * list Z) :=
  if (size <=? 0) || (sum <? min_part * size) then None
  else Some (replicate (Z.to_nat (size - 1)) min_part
               ++ [sum - min_part * (size - 1)], tp).

End Tape.

(** * Properties *)

(** ** The tape source satisfies the contract of the random source *)

Lemma tape_next_range lo hi tp :
  lo ≤ hi → ∃ v tp', Tape.next lo hi tp = Some (v, tp') ∧ lo ≤ v ≤ hi.
Proof.
  intros Hle. unfold Tape.next.
  destruct (Z.ltb_spec hi lo) as [?|_]; [lia|].
  eexists _, _. split; [reflexivity|].
  pose proof (Z.mod_pos_bound (Tape.pop tp).1 (hi - lo + 1)). lia.
Qed.

Lemma tape_next_invalid lo hi tp : hi < lo → Tape.next lo hi tp = None.
Proof.
  intros Hlt. unfold Tape.next.
  destruct (Z.ltb_spec hi lo); [done|lia].
Qed.

Lemma rotate_perm {A} k (l : list A) : rotate k l ≡ₚ l.
Proof.
  unfold rotate. rewrite Permutation_app_comm. by rewrite take_drop.
Qed.

Lemma tape_perm_spec n tp :
  0 ≤ n → ∃ p tp', Tape.perm n tp = Some (p, tp') ∧ p ≡ₚ seqZ 0 n.
Proof.
  intros Hn. unfold Tape.perm, Tape.turn.
  destruct (Z.ltb_spec n 0); [lia|].
  eexists _, _. split; [reflexivity|]. apply rotate_perm.
Qed.

Lemma sum_replicate_ones k z :
  foldr Z.add z (replicate k 1) = Z.of_nat k + z.
Proof. induction k as [|k IH]; simpl; [done|]. rewrite IH. lia. Qed.

Lemma tape_partition_spec count len tp :
  1 ≤ count ≤ len →
  ∃ parts tp', Tape.partition count len 1 tp = Some (parts, tp') ∧
    Z.of_nat (length parts) = count ∧
    Forall (λ x, 1 ≤ x) parts ∧
    foldr Z.add 0 parts = len.
Proof.
  intros [Hc Hl]. unfold Tape.partition.
  destruct (Z.leb_spec count 0); [lia|].
  destruct (Z.ltb_spec len (1 * count)); [lia|]. simpl.
  eexists _, _. split; [reflexivity|]. split_and!.
  - rewrite length_app, length_replicate. simpl. lia.
  - apply Forall_app. split.
    + apply Forall_replicate. lia.
    + constructor; [lia|constructor].
  - rewrite foldr_app, sum_replicate_ones. simpl. lia.
Qed.

Lemma tape_partition_invalid count len tp :
  count > len ∨ count ≤ 0 → Tape.partition count len 1 tp = None.
Proof.
  intros Hbad. unfold Tape.partition.
  destruct (Z.leb_spec count 0); [done|].
  destruct (Z.ltb_spec len (1 * count)); [done|lia].
Qed.

Instance tape_source : RandomSource := {|
  rng := list Z;
  rnd_next := Tape.next;
  rnd_wnext := Tape.wnext;
  rnd_perm := Tape.perm;
  rnd_partition := Tape.partition;
  rnd_shuffle := @Tape.turn;
  rnd_next_range := tape_next_range;
  rnd_next_invalid := tape_next_invalid;
  rnd_wnext_range := λ lo hi _, tape_next_range lo hi;
  rnd_wnext_invalid := λ lo hi _, tape_next_invalid lo hi;
  rnd_perm_spec := tape_perm_spec;
  rnd_partition_spec := tape_partition_spec;
  rnd_partition_invalid := tape_partition_invalid;
  rnd_shuffle_perm := λ A l tp, rotate_perm _ l
|}.

(** The world in which the tape source reads [tp], no referenced
    object exists and nothing was printed. *)
Definition tape_world (tp : list Z) : world (RS := tape_source) :=
  World tp ∅ [].


(** ** Loops and vectors *)

Section Properties.
Context {RS : RandomSource}.

Notation "x <- c ;; k" := (bind c (λ x, k))
  (at level 100, c at next level, right associativity).

(** The rule of a [for] loop whose counter runs over [lo .. lo+len-1]. *)
Lemma for_ret {St} (I : Z → St → world → Prop) (body : St → Z → M St) lo len :
  ∀ acc w,
  0 ≤ len →
  I lo acc w →
  (∀ i acc w, lo ≤ i < lo + len → I i acc w →
     ∃ acc' w', body acc i w = Ret acc' w' ∧ I (i + 1) acc' w') →
  ∃ acc' w', foldM body acc (seqZ lo len) w = Ret acc' w' ∧
             I (lo + len) acc' w'.
Proof.
  intros acc w Hlen. revert acc w.
  rewrite <- (Z2Nat.id len Hlen). generalize (Z.to_nat len) as k. clear Hlen.
  intros k. revert lo. induction k as [|k IH]; intros lo acc w H0 Hstep.
  - rewrite seqZ_nil by lia. simpl. exists acc, w.
    split; [done|]. by replace (lo + Z.of_nat 0) with lo by lia.
  - rewrite seqZ_cons by lia. simpl.
    destruct (Hstep lo acc w) as (acc1 & w1 & Hb & H1); [lia|done|].
    unfold bind at 1. rewrite Hb.
    replace (Z.pred (Z.of_nat (S k))) with (Z.of_nat k) by lia.
    destruct (IH (Z.succ lo) acc1 w1) as (acc2 & w2 & Hf & H2).
    + by replace (Z.succ lo) with (lo + 1) by lia.
    + intros i a v Hi. apply Hstep. lia.
    + exists acc2, w2. split; [done|].
      by replace (lo + Z.of_nat (S k)) with (Z.succ lo + Z.of_nat k) by lia.
Qed.

(** The rule of a loop over the elements of a vector; [pre] is the part
    of the vector already visited. *)
Lemma foldM_ret {A St} (I : list A → St → world → Prop)
    (body : St → A → M St) l :
  ∀ pre acc w,
  I pre acc w →
  (∀ pre' x acc w, x ∈ l → I pre' acc w →
     ∃ acc' w', body acc x w = Ret acc' w' ∧ I (pre' ++ [x]) acc' w') →
  ∃ acc' w', foldM body acc l w = Ret acc' w' ∧ I (pre ++ l) acc' w'.
Proof.
  induction l as [|x l IH]; intros pre acc w H0 Hstep; simpl.
  - exists acc, w. by rewrite app_nil_r.
  - destruct (Hstep pre x acc w) as (acc1 & w1 & Hb & H1);
      [by left|done|].
    unfold bind at 1. rewrite Hb.
    destruct (IH (pre ++ [x]) acc1 w1) as (acc2 & w2 & Hf & H2); [done| |].
    + intros pre' y a v Hy. apply Hstep. by right.
    + exists acc2, w2. split; [done|]. by rewrite <- app_assoc in H2.
Qed.

Lemma vget_Some {A} (v : list A) i x :
  vget v i = Some x ↔ 0 ≤ i ∧ v !! Z.to_nat i = Some x.
Proof.
  unfold vget. destruct (Z.ltb_spec i 0).
  - split; [done|lia].
  - split; [by intros ?|by intros [_ ?]].
Qed.

Lemma vget_None {A} (v : list A) i :
  vget v i = None ↔ i < 0 ∨ Z.of_nat (length v) ≤ i.
Proof.
  unfold vget. destruct (Z.ltb_spec i 0); [naive_solver|].
  rewrite lookup_ge_None. lia.
Qed.

Lemma vget_in_range {A} (v : list A) i :
  0 ≤ i < Z.of_nat (length v) → ∃ x, vget v i = Some x.
Proof.
  intros Hi. destruct (vget v i) as [x|] eqn:E; [by exists x|].
  apply vget_None in E. lia.
Qed.

Lemma vread_ret {A} (v : list A) i x w :
  vget v i = Some x → vread v i w = Ret x w.
Proof. intros E. unfold vread. by rewrite E. Qed.

Lemma vread_undef {A} (v : list A) i w :
  vget v i = None → vread v i w = Undef.
Proof. intros E. unfold vread. by rewrite E. Qed.

Lemma vwrite_ret {A} (v : list A) i x w :
  0 ≤ i < Z.of_nat (length v) →
  vwrite v i x w = Ret (<[Z.to_nat i := x]> v) w.
Proof.
  intros Hi. unfold vwrite.
  by destruct (vget_in_range v i Hi) as [y ->].
Qed.

Lemma vget_insert_eq {A} (v : list A) i x :
  0 ≤ i < Z.of_nat (length v) → vget (<[Z.to_nat i := x]> v) i = Some x.
Proof.
  intros Hi. apply vget_Some. split; [lia|].
  apply list_lookup_insert_eq. lia.
Qed.

Lemma vget_insert_ne {A} (v : list A) i j x :
  0 ≤ i → 0 ≤ j → i ≠ j → vget (<[Z.to_nat i := x]> v) j = vget v j.
Proof.
  intros Hi Hj Hne. unfold vget.
  destruct (Z.ltb_spec j 0); [done|].
  apply list_lookup_insert_ne. lia.
Qed.

Lemma vector_new_ret {A} n (x : A) w :
  0 ≤ n → vector_new n x w = Ret (replicate (Z.to_nat n) x) w.
Proof.
  intros Hn. unfold vector_new. by destruct (Z.ltb_spec n 0); [lia|].
Qed.

Lemma vector_new_fatal {A} n (x : A) w : n < 0 → vector_new n x w = Fatal w.
Proof.
  intros Hn. unfold vector_new. by destruct (Z.ltb_spec n 0); [|lia].
Qed.

Lemma same_io_refl w : same_io w w.
Proof. done. Qed.

Lemma same_io_trans w1 w2 w3 : same_io w1 w2 → same_io w2 w3 → same_io w1 w3.
Proof. intros [??] [??]. split; congruence. Qed.

Lemma wnext_ret lo hi t w :
  lo ≤ hi →
  ∃ v w', wnext lo hi t w = Ret v w' ∧ lo ≤ v ≤ hi ∧ same_io w w'.
Proof.
  intros Hle. unfold wnext, draw.
  destruct (rnd_wnext_range lo hi t (w_rnd w) Hle) as (v & r' & -> & Hv).
  by eexists _, _.
Qed.

Lemma next_ret lo hi w :
  lo ≤ hi →
  ∃ v w', next lo hi w = Ret v w' ∧ lo ≤ v ≤ hi ∧ same_io w w'.
Proof.
  intros Hle. unfold next, draw.
  destruct (rnd_next_range lo hi (w_rnd w) Hle) as (v & r' & -> & Hv).
  by eexists _, _.
Qed.

Lemma perm_ret n w :
  0 ≤ n →
  ∃ p w', perm n w = Ret p w' ∧ p ≡ₚ seqZ 0 n ∧ same_io w w'.
Proof.
  intros Hn. unfold perm, draw.
  destruct (rnd_perm_spec n (w_rnd w) Hn) as (p & r' & -> & Hp).
  by eexists _, _.
Qed.

Lemma shuffle_ret {A} (l : list A) w :
  ∃ l' w', shuffle l w = Ret l' w' ∧ l' ≡ₚ l ∧ same_io w w'.
Proof.
  unfold shuffle. pose proof (rnd_shuffle_perm A l (w_rnd w)) as Hp.
  destruct (rnd_shuffle A l (w_rnd w)) as [l' r']. by eexists _, _.
Qed.

(** ** [genArray] *)

Lemma int_cast_id v : - 2 ^ 31 ≤ v < 2 ^ 31 → int_cast v = v.
Proof.
  intros Hv. unfold int_cast.
  change (2 ^ 31) with 2147483648 in *. change (2 ^ 32) with 4294967296.
  rewrite Z.mod_small; lia.
Qed.

(** With bounds that are [int] values (as when [U] is [int], the
    default), the array has [n] elements, all within the bounds. *)
Lemma genArray_int n Min Max t w :
  0 ≤ n → Min ≤ Max → - 2 ^ 31 ≤ Min → Max < 2 ^ 31 →
  ∃ arr w', genArray n Min Max t w = Ret arr w' ∧
    length arr = Z.to_nat n ∧ Forall (λ v, Min ≤ v ≤ Max) arr.
Proof.
  intros Hn Hle Hlo Hhi. unfold genArray, bind at 1.
  rewrite vector_new_ret by done.
  destruct (for_ret
    (λ i (arr : list Z) (_ : world), length arr = Z.to_nat n ∧
       ∀ k x, 0 ≤ k < i → vget arr k = Some x → Min ≤ x ≤ Max)
    (λ arr i, v <- wnext Min Max t ;; vwrite arr i (int_cast v))
    0 n (replicate (Z.to_nat n) 0) w Hn) as (arr & w' & Hrun & Hlen & Hin).
  - split; [apply length_replicate|]. intros k x Hk. lia.
  - intros i arr w1 Hi [Hlen Hin].
    destruct (wnext_ret Min Max t w1 Hle) as (v & w2 & Hd & Hv & _).
    unfold bind. rewrite Hd, int_cast_id by lia.
    rewrite vwrite_ret by lia. eexists _, _. split; [reflexivity|].
    split; [by rewrite length_insert|].
    intros k x Hk. destruct (decide (k = i)) as [->|Hne].
    + rewrite vget_insert_eq by lia. by intros [= <-].
    + rewrite vget_insert_ne by lia. apply Hin. lia.
  - exists arr, w'. split; [done|]. split; [done|].
    apply Forall_lookup. intros k x Hk. apply (Hin (Z.of_nat k) x).
    + apply lookup_lt_Some in Hk. lia.
    + apply vget_Some. split; [lia|]. by rewrite Nat2Z.id.
Qed.

(** C4: with [U = long long] and [Min = Max = 2^32] the only value
    [rnd.wnext] can draw is [2^32]; stored in the [std::vector<int>] it
    becomes [0], so [genArray] returns a value outside [[Min, Max]]. *)
Theorem genArray_truncates t w :
  ∃ w', genArray 1 (2 ^ 32) (2 ^ 32) t w = Ret [0] w'.
Proof.
  unfold genArray, bind at 1. rewrite vector_new_ret by lia.
  change (seqZ 0 1) with [0]. simpl.
  destruct (wnext_ret (2 ^ 32) (2 ^ 32) t w) as (v & w' & Hd & Hv & _);
    [lia|].
  unfold bind. rewrite Hd. replace v with (2 ^ 32) by lia.
  exists w'. reflexivity.
Qed.

(** ** [getLeaves] *)

Lemma vincr_ret deg a w :
  0 ≤ a < Z.of_nat (length deg) →
  ∃ deg', vincr deg a w = Ret deg' w ∧ length deg' = length deg ∧
    ∀ v d, 0 ≤ v → vget deg v = Some d →
      vget deg' v = Some (d + if decide (a = v) then 1 else 0).
Proof.
  intros Ha. destruct (vget_in_range deg a Ha) as [d0 Hd0].
  unfold vincr, bind. rewrite (vread_ret _ _ _ _ Hd0), vwrite_ret by done.
  eexists. split; [reflexivity|]. split; [apply length_insert|].
  intros v d Hv Hd. destruct (decide (a = v)) as [->|Hne].
  - rewrite vget_insert_eq by done. congruence.
  - rewrite vget_insert_ne by lia. rewrite Hd. f_equal. lia.
Qed.

Lemma vincr_undef deg a w :
  ¬ (0 ≤ a < Z.of_nat (length deg)) → vincr deg a w = Undef.
Proof.
  intros Ha. unfold vincr, bind. rewrite vread_undef; [done|].
  apply vget_None. lia.
Qed.

Lemma degree_snoc E e v :
  degree (E ++ [e]) v =
  (degree E v + ((if decide (e.1 = v) then 1 else 0) +
                 (if decide (e.2 = v) then 1 else 0)))%nat.
Proof.
  unfold degree. rewrite !filter_app, !length_app.
  rewrite !filter_cons, !filter_nil.
  destruct (decide (e.1 = v)), (decide (e.2 = v)); simpl; lia.
Qed.

Lemma sorted_filter_seqZ (P : Z → Prop) `{∀ x, Decision (P x)} k :
  StronglySorted Z.lt (filter P (seqZ 0 (Z.of_nat k))).
Proof.
  induction k as [|k IH]; [constructor|].
  rewrite seqZ_S, filter_app. apply StronglySorted_app. split_and!.
  - intros x y Hx Hy.
    apply list_elem_of_filter in Hx as [_ Hx]. apply elem_of_seqZ in Hx.
    apply list_elem_of_filter in Hy as [_ Hy].
    apply list_elem_of_singleton in Hy. lia.
  - done.
  - rewrite filter_cons, filter_nil. case_decide; repeat constructor.
Qed.

(** The first loop of [getLeaves] on edges whose ends are below [N]. *)
Lemma count_loop_ret N edges w :
  Forall (λ e : edge, 0 ≤ e.1 < N ∧ 0 ≤ e.2 < N) edges →
  0 ≤ N →
  ∃ deg, foldM (λ deg e, deg <- vincr deg e.1 ;; vincr deg e.2)
           (replicate (Z.to_nat N) 0) edges w = Ret deg w ∧
    length deg = Z.to_nat N ∧
    ∀ v, 0 ≤ v < N → vget deg v = Some (Z.of_nat (degree edges v)).
Proof.
  intros Hrange HN.
  destruct (foldM_ret
    (λ pre (deg : list Z) w', w' = w ∧ length deg = Z.to_nat N ∧
       ∀ v, 0 ≤ v < N → vget deg v = Some (Z.of_nat (degree pre v)))
    (λ deg e, deg <- vincr deg e.1 ;; vincr deg e.2)
    edges [] (replicate (Z.to_nat N) 0) w)
    as (deg & w' & Hrun & -> & Hlen & Hdeg).
  - split; [done|]. split; [apply length_replicate|].
    intros v Hv. apply vget_Some. split; [lia|].
    apply lookup_replicate_2. lia.
  - intros pre e deg w1 He (-> & Hlen & Hdeg).
    rewrite Forall_forall in Hrange. destruct (Hrange e He) as [H1 H2].
    destruct (vincr_ret deg e.1 w) as (deg1 & Hr1 & Hl1 & Hg1); [lia|].
    destruct (vincr_ret deg1 e.2 w) as (deg2 & Hr2 & Hl2 & Hg2); [lia|].
    exists deg2, w. unfold bind. rewrite Hr1, Hr2.
    split; [done|]. split; [done|]. split; [congruence|].
    intros v Hv. rewrite (Hg2 v _ (proj1 Hv) (Hg1 v _ (proj1 Hv) (Hdeg v Hv))).
    f_equal. rewrite degree_snoc.
    destruct (decide (e.1 = v)), (decide (e.2 = v)); lia.
  - by exists deg.
Qed.

(** The first loop runs into an access outside [deg] as soon as an edge
    has an end that is not below [N]. *)
Lemma count_loop_undef N edges :
  ∀ deg w,
  Z.of_nat (length deg) = N →
  Exists (λ e : edge, ¬ (0 ≤ e.1 < N ∧ 0 ≤ e.2 < N)) edges →
  foldM (λ deg e, deg <- vincr deg e.1 ;; vincr deg e.2) deg edges w
  = Undef.
Proof.
  induction edges as [|e edges IH]; intros deg w Hlen Hex.
  - by apply Exists_nil in Hex.
  - simpl. unfold bind at 1 2.
    destruct (decide (0 ≤ e.1 < N)) as [H1|H1];
      [|by rewrite vincr_undef by lia].
    destruct (vincr_ret deg e.1 w) as (deg1 & -> & Hl1 & _); [lia|].
    destruct (decide (0 ≤ e.2 < N)) as [H2|H2];
      [|by rewrite vincr_undef by lia].
    destruct (vincr_ret deg1 e.2 w) as (deg2 & -> & Hl2 & _); [lia|].
    apply IH; [lia|].
    apply Exists_cons in Hex as [Hex|Hex]; [|done]. tauto.
Qed.

(** The scan for the nodes of degree one. *)
Lemma scan_loop_ret (f : Z → nat) N deg w :
  0 ≤ N →
  (∀ v, 0 ≤ v < N → vget deg v = Some (Z.of_nat (f v))) →
  foldM (λ leaf i,
           d <- vread deg i ;;
           if d =? 1 then ret (leaf ++ [i]) else ret leaf)
        [] (seqZ 0 N) w
  = Ret (filter (λ v, f v = 1%nat) (seqZ 0 N)) w.
Proof.
  intros HN Hdeg.
  destruct (for_ret
    (λ i (leaf : list Z) w', w' = w ∧
       leaf = filter (λ v, f v = 1%nat) (seqZ 0 i))
    (λ leaf i, d <- vread deg i ;;
               if d =? 1 then ret (leaf ++ [i]) else ret leaf)
    0 N [] w HN) as (leaf & w' & Hrun & -> & ->).
  - split; [done|]. by rewrite seqZ_nil.
  - intros i leaf w1 Hi [-> ->]. unfold bind.
    rewrite (vread_ret _ _ _ _ (Hdeg i Hi)).
    rewrite (seqZ_app 0 i 1), filter_app by lia.
    change (seqZ (0 + i) 1) with [0 + i].
    rewrite filter_cons, filter_nil. rewrite Z.add_0_l.
    destruct (decide (f i = 1%nat)) as [D|D];
      destruct (Z.eqb_spec (Z.of_nat (f i)) 1) as [E|E]; try lia.
    + by eexists _, _.
    + eexists _, _. split; [reflexivity|]. by rewrite app_nil_r.
  - done.
Qed.

Lemma ends_in_range_below E :
  ends_in_range E ↔
  Forall (λ e : edge, 0 ≤ e.1 < Z.of_nat (length E) + 1 ∧
                      0 ≤ e.2 < Z.of_nat (length E) + 1) E.
Proof.
  unfold ends_in_range. apply Forall_proper; [|done]. intros e. lia.
Qed.

(** On edges whose ends are in range, [getLeaves] returns the ids of
    degree one in the order of the scan and prints how many they are. *)
Lemma getLeaves_ret edges w :
  ends_in_range edges →
  let leaf := filter (λ v, degree edges v = 1%nat)
                (seqZ 0 (Z.of_nat (length edges) + 1)) in
  getLeaves edges w =
    Ret leaf (World (w_rnd w) (w_mem w)
                (w_cerr w ++ [OStr "number of leaf is ";
                              ONum (Z.of_nat (length leaf));
                              OChar "010"%char])).
Proof.
  intros Hrange. apply ends_in_range_below in Hrange.
  set (N := Z.of_nat (length edges) + 1) in *.
  assert (0 ≤ N) as HN by lia.
  destruct (count_loop_ret N edges w Hrange HN) as (deg & Hrun & Hlen & Hdeg).
  unfold getLeaves. fold N. unfold bind at 1.
  rewrite vector_new_ret by done. unfold bind at 1. rewrite Hrun.
  unfold bind at 1. rewrite (scan_loop_ret (degree edges) N deg w HN Hdeg).
  reflexivity.
Qed.

(** C8: on an edge list whose ends are node ids of [0 .. edges.size()],
    [getLeaves] returns exactly the ids of degree one among the
    [edges.size() + 1] nodes, in ascending order, and writes their number
    to [std::cerr]. *)
Theorem getLeaves_spec edges w :
  ends_in_range edges →
  ∃ leaf,
    getLeaves edges w =
      Ret leaf (World (w_rnd w) (w_mem w)
                  (w_cerr w ++ [OStr "number of leaf is ";
                                ONum (Z.of_nat (length leaf));
                                OChar "010"%char])) ∧
    (∀ v, v ∈ leaf ↔
          0 ≤ v ≤ Z.of_nat (length edges) ∧ degree edges v = 1%nat) ∧
    StronglySorted Z.lt leaf.
Proof.
  intros Hrange. eexists. split; [by apply getLeaves_ret|]. split.
  - intros v. rewrite list_elem_of_filter, elem_of_seqZ. lia.
  - rewrite <- (Z2Nat.id (Z.of_nat (length edges) + 1)) by lia.
    apply sorted_filter_seqZ.
Qed.

(** C9: [getLeaves] performs no access outside its degree array when
    every end of every edge lies in [[0, edges.size()]] (it then
    returns), and performs one as soon as some end does not. *)
Theorem getLeaves_in_bounds_iff edges w :
  (ends_in_range edges ↔ ∃ leaf w', getLeaves edges w = Ret leaf w') ∧
  (¬ ends_in_range edges ↔ getLeaves edges w = Undef).
Proof.
  destruct (decide (ends_in_range edges)) as [Hin|Hout].
  - pose proof (getLeaves_ret edges w Hin) as Hrun. simpl in Hrun.
    split; split; try done.
    + intros _. by eexists _, _.
    + rewrite Hrun. done.
  - assert (getLeaves edges w = Undef) as Hrun.
    { unfold getLeaves, bind at 1. rewrite vector_new_ret by lia.
      unfold bind at 1. rewrite (count_loop_undef
        (Z.of_nat (length edges) + 1)); [done| |].
      - rewrite length_replicate. lia.
      - rewrite ends_in_range_below in Hout.
        by apply not_Forall_Exists in Hout; [|apply _]. }
    split; split; try done.
    intros (leaf & w' & Hret). congruence.
Qed.

(** ** [sample] *)

Lemma partition_ret count len w :
  1 ≤ count ≤ len →
  ∃ parts w', partition count len 1 w = Ret parts w' ∧
    Z.of_nat (length parts) = count ∧ Forall (λ x, 1 ≤ x) parts ∧
    foldr Z.add 0 parts = len ∧ same_io w w'.
Proof.
  intros Hc. unfold partition, draw.
  destruct (rnd_partition_spec count len (w_rnd w) Hc)
    as (parts & r' & -> & Hlen & Hpos & Hsum).
  by eexists _, _.
Qed.

Lemma partition_fatal count len w :
  count > len ∨ count ≤ 0 → partition count len 1 w = Fatal w.
Proof.
  intros Hc. unfold partition, draw.
  by rewrite (rnd_partition_invalid count len (w_rnd w) Hc).
Qed.

(** The loop of [sample] over positive parts draws one index in each
    block [tmp .. tmp + x - 1]; the indices [idxs] it draws do not depend
    on the container, and the loop returns the elements at [idxs] unless
    one of them lies outside the container. *)
Lemma sample_loop_spec parts :
  ∀ tmp w,
  Forall (λ x, 1 ≤ x) parts →
  ∃ idxs w',
    length idxs = length parts ∧
    Forall (λ i, tmp ≤ i < tmp + foldr Z.add 0 parts) idxs ∧
    StronglySorted Z.lt idxs ∧
    same_io w w' ∧
    ∀ A (c : list A) res,
      foldM (pick c) (res, tmp) parts w =
      match mapM (vget c) idxs with
      | Some els => Ret (res ++ els, tmp + foldr Z.add 0 parts) w'
      | None => Undef
      end.
Proof.
  induction parts as [|x parts IH]; intros tmp w Hpos.
  - exists [], w. split_and!; try done; try constructor.
    intros A c res. simpl. unfold ret. by rewrite app_nil_r, Z.add_0_r.
  - apply Forall_cons in Hpos as [Hx Hpos].
    destruct (next_ret tmp (tmp + x - 1) w) as (idx & w1 & Hd & Hidx & Hio1);
      [lia|].
    destruct (IH (tmp + x) w1 Hpos) as (idxs & w' & Hlen & Hin & Hsort & Hio & Hrun).
    assert (0 ≤ foldr Z.add 0 parts) as Hsum.
    { clear -Hpos. induction Hpos; simpl; lia. }
    exists (idx :: idxs), w'. split_and!.
    + simpl. by rewrite Hlen.
    + simpl. constructor; [lia|].
      eapply Forall_impl; [exact Hin|]. simpl. intros i. lia.
    + constructor; [done|].
      eapply Forall_impl; [exact Hin|]. simpl. intros i. lia.
    + by eapply same_io_trans.
    + intros A c res. cbn [foldM mapM]. unfold bind at 1, pick at 1, bind at 1.
      cbn [fst snd]. rewrite Hd. unfold vread, bind at 1.
      destruct (vget c idx) as [e|]; simpl; [|done].
      rewrite Hrun.
      destruct (mapM (vget c) idxs) as [els|]; simpl; [|done].
      by rewrite <- app_assoc, Z.add_assoc.
Qed.

Lemma sorted_lt_NoDup (l : list Z) : StronglySorted Z.lt l → NoDup l.
Proof.
  induction 1 as [|x l Hs IH Hall]; constructor; [|done].
  intros Hx. rewrite Forall_forall in Hall. specialize (Hall x Hx). lia.
Qed.

(** [sample] with a valid count: the indices it reads, and what it
    returns. *)
Lemma sample_valid count len w :
  1 ≤ count ≤ len →
  ∃ idxs w1,
    Z.of_nat (length idxs) = count ∧
    Forall (λ i, 0 ≤ i < len) idxs ∧
    NoDup idxs ∧
    same_io w w1 ∧
    ∀ A (c : list A),
      sample c len count w =
      match mapM (vget c) idxs with
      | Some els => shuffle els w1
      | None => Undef
      end.
Proof.
  intros Hc.
  destruct (partition_ret count len w Hc)
    as (parts & w0 & Hp & Hlen & Hpos & Hsum & Hio0).
  destruct (sample_loop_spec parts 0 w0 Hpos)
    as (idxs & w1 & Hl & Hin & Hsort & Hio1 & Hrun).
  exists idxs, w1. split_and!.
  - by rewrite Hl.
  - eapply Forall_impl; [exact Hin|]. simpl. intros i. lia.
  - by apply sorted_lt_NoDup.
  - by eapply same_io_trans.
  - intros A c. unfold sample, bind at 1. rewrite Hp.
    unfold bind at 1. rewrite Hrun.
    by destruct (mapM (vget c) idxs).
Qed.

Lemma mapM_vget_in_range {A} (c : list A) idxs :
  Forall (λ i, 0 ≤ i < Z.of_nat (length c)) idxs →
  ∃ els, mapM (vget c) idxs = Some els.
Proof.
  intros Hin. apply (mapM_is_Some_2 (vget c)).
  eapply Forall_impl; [exact Hin|]. simpl. intros i Hi.
  destruct (vget_in_range c i Hi) as [x ->]. by eexists.
Qed.

Lemma sample_ret {A} (c : list A) len count w :
  1 ≤ count ≤ len → len ≤ Z.of_nat (length c) →
  ∃ res w' idxs,
    sample c len count w = Ret res w' ∧
    Z.of_nat (length res) = count ∧
    NoDup idxs ∧
    Forall (λ i, 0 ≤ i < len) idxs ∧
    Forall2 (λ i x, vget c i = Some x) idxs res ∧
    same_io w w'.
Proof.
  intros Hc Hsize.
  destruct (sample_valid count len w Hc)
    as (idxs & w1 & Hlen & Hin & Hnd & Hio1 & Hrun).
  destruct (mapM_vget_in_range c idxs) as [els Hels].
  { eapply Forall_impl; [exact Hin|]. simpl. intros i. lia. }
  destruct (shuffle_ret els w1) as (res & w' & Hsh & Hperm & Hio2).
  apply mapM_Some in Hels.
  assert (Forall2 (flip (λ i x, vget c i = Some x)) els idxs) as Hels'
    by (by apply Forall2_flip).
  destruct (Permutation_Forall2 (Permutation_sym Hperm) Hels')
    as (idxs' & Hperm' & Hall).
  apply Forall2_flip in Hall.
  exists res, w', idxs'. split_and!.
  - by rewrite Hrun, (proj2 (mapM_Some _ _ _) Hels).
  - rewrite <- Hlen. f_equal.
    rewrite <- (Forall2_length _ _ _ Hall).
    by rewrite <- Hperm'.
  - by rewrite <- Hperm'.
  - by rewrite <- Hperm'.
  - done.
  - by eapply same_io_trans.
Qed.


Lemma sample_not_fatal {A} (c : list A) len count w w' :
  1 ≤ count ≤ len → sample c len count w ≠ Fatal w'.
Proof.
  intros Hc.
  destruct (sample_valid count len w Hc) as (idxs & w1 & _ & _ & _ & _ & ->).
  destruct (mapM (vget c) idxs) as [els|]; [|done].
  by destruct (shuffle_ret els w1) as (res & w2 & -> & _).
Qed.

(** C7, as amended: [sample] fails fatally exactly when
    [1 <= count <= length] is violated.  With [count > length] or
    [count <= 0] it stops in [rnd.partition], before any draw or read;
    with [1 <= count <= length] it never fails fatally, and it returns
    when moreover [length] does not exceed the size of the container. *)
Theorem sample_fatal_iff {A} (c : list A) len count w :
  (count > len ∨ count ≤ 0 → sample c len count w = Fatal w) ∧
  (1 ≤ count ≤ len →
     (∀ w', sample c len count w ≠ Fatal w') ∧
     (len ≤ Z.of_nat (length c) →
        ∃ res w', sample c len count w = Ret res w')).
Proof.
  split.
  - intros Hbad. unfold sample, bind at 1. by rewrite partition_fatal.
  - intros Hc. split.
    + intros w'. by apply sample_not_fatal.
    + intros Hsize.
      destruct (sample_ret c len count w Hc Hsize) as (res & w' & _ & Hrun & _).
      by exists res, w'.
Qed.

Lemma mapM_vget_agree {A} (c c' : list A) len idxs :
  (∀ i, 0 ≤ i < len → vget c' i = vget c i) →
  Forall (λ i, 0 ≤ i < len) idxs →
  mapM (vget c') idxs = mapM (vget c) idxs.
Proof.
  intros Hagree Hin. induction Hin as [|i idxs Hi _ IH]; [done|].
  cbn [mapM]. by rewrite (Hagree i Hi), IH.
Qed.

(** [sample] depends on the container only through the elements at the
    indices of [[0, length)]. *)
Lemma sample_agree {A} (c c' : list A) len count w :
  1 ≤ count ≤ len →
  (∀ i, 0 ≤ i < len → vget c' i = vget c i) →
  sample c' len count w = sample c len count w.
Proof.
  intros Hc Hagree.
  destruct (sample_valid count len w Hc) as (idxs & w1 & _ & Hin & _ & _ & Hrun).
  by rewrite !Hrun, (mapM_vget_agree c c' len idxs).
Qed.


End Properties.

(** ** An execution of [sample] that leaves the container

    On a tape of [-1]s every uniform draw yields the upper end of its
    range. *)




(** ** [sample] on a [std::string] *)

Section Strings.
Context {RS : RandomSource}.

(** A string reads like the vector of its characters followed by the
    terminator. *)
Lemma sget_terminated s i : sget s i = vget (s ++ ["000"%char]) i.
Proof.
  unfold sget, vget. destruct (Z.eqb_spec i (Z.of_nat (length s))) as [->|Hne].
  - destruct (Z.ltb_spec (Z.of_nat (length s)) 0); [lia|].
    rewrite Nat2Z.id, lookup_app_r by lia. by rewrite Nat.sub_diag.
  - destruct (Z.ltb_spec i 0); [done|].
    destruct (decide (i < Z.of_nat (length s))) as [Hlt|Hge].
    + by rewrite lookup_app_l by lia.
    + rewrite !(proj2 (lookup_ge_None _ _)); [done| |lia].
      rewrite length_app. simpl. lia.
Qed.

Lemma foldM_ext {A St} (f g : St → A → M St) l :
  (∀ acc x w, f acc x w = g acc x w) →
  ∀ acc w, foldM f acc l w = foldM g acc l w.
Proof.
  intros Hfg. induction l as [|x l IH]; intros acc w; [done|].
  simpl. unfold bind. rewrite Hfg. by destruct (g acc x w).
Qed.

Lemma sample_string_terminated s len count w :
  sample_string s len count w = sample (s ++ ["000"%char]) len count w.
Proof.
  unfold sample_string, sample, bind.
  destruct (partition count len 1 w) as [vec w1| |]; [|done..].
  rewrite (foldM_ext (pick_string s) (pick (s ++ ["000"%char]))); [done|].
  intros st x w2. unfold pick_string, pick, bind, sread, vread.
  destruct (next st.2 (st.2 + x - 1) w2) as [idx w3| |]; [|done..].
  by rewrite sget_terminated.
Qed.

(** When [length] does not exceed the size, the terminator is never
    read and the two instances of the template behave alike. *)
Lemma sample_string_vector s len count w :
  len ≤ Z.of_nat (length s) →
  sample_string s len count w = sample s len count w.
Proof.
  intros Hsize. rewrite sample_string_terminated.
  destruct (decide (1 ≤ count ≤ len)) as [Hc|Hc].
  - apply sample_agree; [done|]. intros i Hi. unfold vget.
    destruct (Z.ltb_spec i 0); [done|]. by rewrite lookup_app_l by lia.
  - unfold sample, bind. by rewrite !partition_fatal by lia.
Qed.

End Strings.


(** ** Paths in edge lists *)

Lemma reach_mono E E' u v :
  (∀ e, e ∈ E → e ∈ E') → reach E u v → reach E' u v.
Proof.
  intros Hsub. induction 1 as [|v w _ IH He]; [constructor|].
  eapply reach_step; [exact IH|]. by apply Hsub.
Qed.

Lemma adj_sym E u v : adj E u v → adj E v u.
Proof. unfold adj. tauto. Qed.

Lemma adj_mono E E' u v : (∀ e, e ∈ E → e ∈ E') → adj E u v → adj E' u v.
Proof. unfold adj. intros Hsub [?|?]; [left|right]; by apply Hsub. Qed.

Lemma joined_mono E E' u v :
  (∀ e, e ∈ E → e ∈ E') → joined E u v → joined E' u v.
Proof.
  intros Hsub. induction 1 as [|v w _ IH He]; [constructor|].
  eapply joined_step; [exact IH|]. by eapply adj_mono.
Qed.

Lemma joined_trans E u v w : joined E u v → joined E v w → joined E u w.
Proof.
  intros Huv. induction 1 as [|x y _ IH Hxy]; [done|].
  by eapply joined_step.
Qed.

Lemma joined_sym E u v : joined E u v → joined E v u.
Proof.
  induction 1 as [|x y _ IH Hxy]; [constructor|].
  eapply joined_trans; [|exact IH].
  eapply joined_step; [constructor|]. by apply adj_sym.
Qed.

Lemma reach_joined E u v : reach E u v → joined E u v.
Proof.
  induction 1 as [|x y _ IH Hxy]; [constructor|].
  eapply joined_step; [exact IH|]. by left.
Qed.

Lemma acyclic_perm E E' : E' ≡ₚ E → acyclic E → acyclic E'.
Proof.
  intros Hperm Hacyc E1' e E2' ->.
  symmetry in Hperm.
  destruct (Permutation_vs_elt_inv _ _ _ Hperm) as (E1 & E2 & ->).
  apply Permutation_app_inv in Hperm.
  intros Hj. apply (Hacyc E1 e E2 eq_refl).
  eapply joined_mono; [|exact Hj].
  intros x. by rewrite Hperm.
Qed.

(** ** The edges of a parent vector

    [par i < i] is the parent of the structural index [i], and [lab]
    relabels the indices [0 .. n-1] one-to-one. *)
Section Tree.
Context (n : Z) (par lab : Z → Z).
Hypothesis par_lt : ∀ i, 1 ≤ i < n → 0 ≤ par i < i.
Hypothesis lab_inj :
  ∀ i j, 0 ≤ i < n → 0 ≤ j < n → lab i = lab j → i = j.

Abbreviation hang := (hangs n par lab).

Lemma seqZ_edge (P : Z → edge → Prop) es i :
  Forall2 P (seqZ 1 (n - 1)) es → 1 ≤ i < n → ∃ e, e ∈ es ∧ P i e.
Proof.
  intros Hall Hi.
  assert (seqZ 1 (n - 1) !! Z.to_nat (i - 1) = Some i) as Hlook.
  { apply lookup_seqZ. lia. }
  destruct (Forall2_lookup_l _ _ _ _ _ Hall Hlook) as (e & He & HP).
  exists e. split; [|done]. by eapply list_elem_of_lookup_2.
Qed.

(** Directed: every edge points from the parent to the child. *)
Lemma down_edges_reach es :
  Forall2 (down_edge par lab) (seqZ 1 (n - 1)) es →
  ∀ i, 0 ≤ i < n → reach es (lab 0) (lab i).
Proof.
  intros Hall.
  assert (∀ k : nat, ∀ i, 0 ≤ i < n → i ≤ Z.of_nat k →
            reach es (lab 0) (lab i)) as Hind.
  { induction k as [|k IH]; intros i Hi Hk.
    - replace i with 0 by lia. constructor.
    - destruct (decide (i = 0)) as [->|Hne]; [constructor|].
      destruct (seqZ_edge _ es i Hall) as (e & He & Hd); [lia|].
      pose proof (par_lt i ltac:(lia)) as Hp.
      eapply reach_step; [apply (IH (par i)); lia|].
      unfold down_edge in Hd. by rewrite <- Hd. }
  intros i Hi. apply (Hind (Z.to_nat i)); lia.
Qed.

(** Undirected: either direction. *)
Lemma tree_edges_joined es :
  Forall2 (tree_edge par lab) (seqZ 1 (n - 1)) es →
  ∀ i, 0 ≤ i < n → joined es (lab 0) (lab i).
Proof.
  intros Hall.
  assert (∀ k : nat, ∀ i, 0 ≤ i < n → i ≤ Z.of_nat k →
            joined es (lab 0) (lab i)) as Hind.
  { induction k as [|k IH]; intros i Hi Hk.
    - replace i with 0 by lia. constructor.
    - destruct (decide (i = 0)) as [->|Hne]; [constructor|].
      destruct (seqZ_edge _ es i Hall) as (e & He & Hd); [lia|].
      pose proof (par_lt i ltac:(lia)) as Hp.
      eapply joined_step; [apply (IH (par i)); lia|].
      destruct Hd as [->| ->]; [by right|by left]. }
  intros i Hi. apply (Hind (Z.to_nat i)); lia.
Qed.

Lemma below_le k i : below n par k i → k ≤ i.
Proof.
  induction 1 as [|i Hi _ IH]; [lia|].
  pose proof (par_lt i Hi). lia.
Qed.

Lemma below_parent k i : below n par k i → i ≠ k → below n par k (par i).
Proof. destruct 1; [done|]. auto. Qed.

(** Whether a label hangs below [k] does not change along an edge
    other than the one from [k] to its parent. *)
Lemma hangs_edge k j e :
  1 ≤ j < n → j ≠ k → tree_edge par lab j e → hang k e.1 ↔ hang k e.2.
Proof.
  intros Hj Hne He. pose proof (par_lt j Hj) as Hp.
  assert (hang k (lab j) ↔ hang k (lab (par j))) as Hiff.
  { split; intros (i & Hi & Hlab & Hb).
    - apply lab_inj in Hlab; [|lia..]. subst i.
      exists (par j). split; [lia|]. split; [done|]. by apply below_parent.
    - apply lab_inj in Hlab; [|lia..]. subst i.
      exists j. split; [lia|]. split; [done|]. by apply below_child. }
  destruct He as [->| ->]; simpl; tauto.
Qed.

Lemma tree_edges_acyclic es :
  Forall2 (tree_edge par lab) (seqZ 1 (n - 1)) es → acyclic es.
Proof.
  intros Hall E1 e E2 ->.
  apply Forall2_app_inv_r in Hall as (l1 & l2' & H1 & H2 & Hseq).
  apply Forall2_cons_inv_r in H2 as (k & l2 & Hk & H2 & ->).
  pose proof (NoDup_seqZ 1 (n - 1)) as Hnd. rewrite Hseq in Hnd.
  assert (∀ j, j ∈ l1 ++ l2 → 1 ≤ j < n ∧ j ≠ k) as Hrest.
  { intros j Hj. split.
    - assert (j ∈ seqZ 1 (n - 1)) as Hin.
      { rewrite Hseq. apply elem_of_app.
        apply elem_of_app in Hj as [Hj|Hj]; [by left|right; by right]. }
      apply elem_of_seqZ in Hin. lia.
    - intros ->. apply NoDup_app in Hnd as (_ & Hdis & Hnd2).
      apply NoDup_cons in Hnd2 as [Hk2 _].
      apply elem_of_app in Hj as [Hj|Hj]; [|done].
      apply (Hdis k Hj). by left. }
  assert (1 ≤ k < n) as Hkr.
  { assert (k ∈ seqZ 1 (n - 1)) as Hin.
    { rewrite Hseq. apply elem_of_app. right. by left. }
    apply elem_of_seqZ in Hin. lia. }
  assert (∀ u v, adj (E1 ++ E2) u v → hang k u ↔ hang k v) as Hadj.
  { assert (∀ e', e' ∈ E1 ++ E2 → hang k e'.1 ↔ hang k e'.2) as Hedge.
    { intros e' He'.
      assert (Forall2 (tree_edge par lab) (l1 ++ l2) (E1 ++ E2)) as Hall
        by (by apply Forall2_app).
      apply list_elem_of_lookup in He' as [pos Hpos].
      destruct (Forall2_lookup_r _ _ _ _ _ Hall Hpos) as (j & Hj & Hje).
      apply list_elem_of_lookup_2 in Hj.
      destruct (Hrest j Hj) as [Hjr Hjk]. by eapply hangs_edge. }
    intros u v [Huv|Hvu].
    - apply (Hedge (u, v) Huv).
    - symmetry. apply (Hedge (v, u) Hvu). }
  assert (∀ u v, joined (E1 ++ E2) u v → hang k u ↔ hang k v) as Hpath.
  { intros u v. induction 1 as [|x y _ IH Hxy]; [done|].
    rewrite IH. by apply Hadj. }
  assert (hang k (lab k)) as Hyes.
  { exists k. split; [lia|]. split; [done|]. constructor. }
  assert (¬ hang k (lab (par k))) as Hno.
  { intros (i & Hi & Hlab & Hb). pose proof (par_lt k Hkr) as Hp.
    apply lab_inj in Hlab; [|lia..]. subst i.
    apply below_le in Hb. lia. }
  intros Hj. apply Hpath in Hj.
  destruct Hk as [->| ->]; simpl in Hj; tauto.
Qed.

End Tree.

(** ** [genTree] and [genConnectedDirectedGraph] *)

Section Builders.
Context {RS : RandomSource}.

Lemma foldM_seqZ_nil {St} (body : St → Z → M St) acc lo len w :
  len ≤ 0 → foldM body acc (seqZ lo len) w = Ret acc w.
Proof. intros Hlen. by rewrite seqZ_nil. Qed.

Lemma vat_Some v i : 0 ≤ i < Z.of_nat (length v) → vget v i = Some (vat v i).
Proof.
  intros Hi. unfold vat. by destruct (vget_in_range v i Hi) as [x ->].
Qed.

Lemma parents_fatal n t w : n < 0 → parents n t w = Fatal w.
Proof.
  intros Hn. unfold parents, bind. by rewrite vector_new_fatal.
Qed.

(** Every [p[i]] with [1 <= i < n] is an index below [i]. *)
Lemma parents_ret n t w :
  0 ≤ n →
  ∃ p w', parents n t w = Ret p w' ∧
    Z.of_nat (length p) = n ∧
    (∀ i, 1 ≤ i < n → 0 ≤ vat p i < i) ∧
    same_io w w'.
Proof.
  intros Hn. unfold parents, bind at 1. rewrite vector_new_ret by done.
  destruct (decide (n = 0)) as [->|Hne].
  { rewrite foldM_seqZ_nil by lia. eexists _, _.
    split; [reflexivity|]. split; [done|]. split; [lia|done]. }
  destruct (for_ret
    (λ i (p : list Z) w', Z.of_nat (length p) = n ∧
       (∀ j, 1 ≤ j < i → 0 ≤ vat p j < j) ∧ same_io w w')
    (λ p i, bind (wnext1 i t) (λ v, vwrite p i v))
    1 (n - 1) (replicate (Z.to_nat n) 0) w) as (p & w' & Hrun & Hlen & Hp & Hio).
  - lia.
  - split; [rewrite length_replicate; lia|]. split; [lia|done].
  - intros i p w1 Hi (Hlen & Hp & Hio).
    destruct (wnext_ret 0 (i - 1) t w1) as (v & w2 & Hd & Hv & Hio2); [lia|].
    unfold bind, wnext1. rewrite Hd, vwrite_ret by lia.
    eexists _, _. split; [reflexivity|]. split_and!.
    + by rewrite length_insert.
    + intros j Hj. unfold vat. destruct (decide (j = i)) as [->|Hji].
      * rewrite vget_insert_eq by lia. simpl. lia.
      * rewrite vget_insert_ne by lia. apply Hp. lia.
    + by eapply same_io_trans.
  - exists p, w'. split; [done|]. split; [done|]. split; [|done].
    intros i Hi. apply Hp. lia.
Qed.

(** What a permutation of [0 .. n-1] gives as a labelling. *)
Lemma perm_labels pm n :
  pm ≡ₚ seqZ 0 n → 0 ≤ n →
  Z.of_nat (length pm) = n ∧
  (∀ i, 0 ≤ i < n → 0 ≤ vat pm i < n) ∧
  (∀ i j, 0 ≤ i < n → 0 ≤ j < n → vat pm i = vat pm j → i = j) ∧
  (∀ v, 0 ≤ v < n → ∃ i, 0 ≤ i < n ∧ vat pm i = v).
Proof.
  intros Hperm Hn.
  assert (Z.of_nat (length pm) = n) as Hlen.
  { rewrite Hperm, length_seqZ. lia. }
  assert (∀ i, 0 ≤ i < n → pm !! Z.to_nat i = Some (vat pm i)) as Hlook.
  { intros i Hi. apply (vget_Some pm i). apply vat_Some. lia. }
  split; [done|]. split_and!.
  - intros i Hi. assert (vat pm i ∈ seqZ 0 n) as Hin.
    { rewrite <- Hperm. eapply list_elem_of_lookup_2. by apply Hlook. }
    apply elem_of_seqZ in Hin. lia.
  - intros i j Hi Hj Heq.
    assert (NoDup pm) as Hnd by (rewrite Hperm; apply NoDup_seqZ).
    pose proof (Hlook i Hi) as Hli. pose proof (Hlook j Hj) as Hlj.
    rewrite Heq in Hli.
    pose proof (NoDup_lookup _ _ _ _ Hnd Hli Hlj). lia.
  - intros v Hv. assert (v ∈ pm) as Hin.
    { rewrite Hperm. apply elem_of_seqZ. lia. }
    apply list_elem_of_lookup in Hin as [k Hk].
    pose proof (lookup_lt_Some _ _ _ Hk) as Hlt.
    exists (Z.of_nat k). split; [lia|].
    unfold vat. rewrite (proj2 (vget_Some pm (Z.of_nat k) v)); [done|].
    split; [lia|]. by rewrite Nat2Z.id.
Qed.

Lemma seqZ_snoc i : 1 ≤ i → seqZ 1 (i + 1 - 1) = seqZ 1 (i - 1) ++ [i].
Proof.
  intros Hi. replace (i + 1 - 1) with ((i - 1) + 1) by lia.
  rewrite seqZ_app by lia. by replace (1 + (i - 1)) with i by lia.
Qed.

(** The loop of [genTree] emits, for each index, the edge to its
    parent in one direction or the other. *)
Lemma tree_loop_ret n p pm w :
  1 ≤ n → Z.of_nat (length p) = n → Z.of_nat (length pm) = n →
  (∀ i, 1 ≤ i < n → 0 ≤ vat p i < i) →
  ∃ es w', foldM (tree_step p pm) [] (seqZ 1 (n - 1)) w = Ret es w' ∧
    Forall2 (tree_edge (vat p) (vat pm)) (seqZ 1 (n - 1)) es ∧
    same_io w w'.
Proof.
  intros Hn Hlp Hlpm Hp.
  destruct (for_ret
    (λ i (es : list edge) w',
       Forall2 (tree_edge (vat p) (vat pm)) (seqZ 1 (i - 1)) es ∧
       same_io w w')
    (tree_step p pm) 1 (n - 1) [] w) as (es & w' & Hrun & Hall & Hio).
  - lia.
  - split; [|done]. rewrite seqZ_nil by lia. constructor.
  - intros i es w1 Hi [Hall Hio]. pose proof (Hp i ltac:(lia)) as Hpi.
    destruct (next_ret 0 1 w1) as (c & w2 & Hd & _ & Hio2); [lia|].
    unfold tree_step, bind. change (next1 2 w1) with (next 0 1 w1).
    rewrite Hd.
    rewrite (vread_ret p i (vat p i)) by (apply vat_Some; lia).
    rewrite (vread_ret pm i (vat pm i)) by (apply vat_Some; lia).
    rewrite (vread_ret pm (vat p i) (vat pm (vat p i)))
      by (apply vat_Some; lia).
    rewrite seqZ_snoc by lia.
    destruct (c =? 0); eexists _, _; (split; [reflexivity|]);
      (split; [|by eapply same_io_trans]);
      (apply Forall2_app; [done|]);
      (apply Forall2_cons; split; [|constructor]).
    + by right.
    + by left.
  - exists es, w'. split; [done|]. split; [|done].
    by replace (1 + (n - 1) - 1) with (n - 1) in Hall by lia.
Qed.

(** The loop of [genConnectedDirectedGraph] over the spanning edges
    emits them from the parent to the child. *)
Lemma span_loop_ret n p pm w :
  1 ≤ n → Z.of_nat (length p) = n → Z.of_nat (length pm) = n →
  (∀ i, 1 ≤ i < n → 0 ≤ vat p i < i) →
  ∃ es, foldM (span_step p pm) [] (seqZ 1 (n - 1)) w = Ret es w ∧
    Forall2 (down_edge (vat p) (vat pm)) (seqZ 1 (n - 1)) es.
Proof.
  intros Hn Hlp Hlpm Hp.
  destruct (for_ret
    (λ i (es : list edge) w',
       Forall2 (down_edge (vat p) (vat pm)) (seqZ 1 (i - 1)) es ∧ w' = w)
    (span_step p pm) 1 (n - 1) [] w) as (es & w' & Hrun & Hall & ->).
  - lia.
  - split; [|done]. rewrite seqZ_nil by lia. constructor.
  - intros i es w1 Hi [Hall ->]. pose proof (Hp i ltac:(lia)) as Hpi.
    unfold span_step, bind.
    rewrite (vread_ret p i (vat p i)) by (apply vat_Some; lia).
    rewrite (vread_ret pm (vat p i) (vat pm (vat p i)))
      by (apply vat_Some; lia).
    rewrite (vread_ret pm i (vat pm i)) by (apply vat_Some; lia).
    rewrite seqZ_snoc by lia.
    eexists _, _. split; [reflexivity|]. split; [|done].
    apply Forall2_app; [done|]. by apply Forall2_cons.
  - exists es. split; [done|].
    by replace (1 + (n - 1) - 1) with (n - 1) in Hall by lia.
Qed.

(** The loop that adds [m - n + 1] further edges; it draws two nodes
    with [sample], which needs [n >= 2]. *)
Lemma extra_loop_ret n m pm es0 w :
  Z.of_nat (length pm) = n → n - 1 ≤ m → (n ≤ m → 2 ≤ n) →
  ∃ extra w', foldM (extra_step pm n) es0 (seqZ n (m - n + 1)) w
              = Ret (es0 ++ extra) w' ∧
    Z.of_nat (length extra) = m - n + 1 ∧ same_io w w'.
Proof.
  intros Hlpm Hm Hn2.
  destruct (for_ret
    (λ i (es : list edge) w', ∃ extra, es = es0 ++ extra ∧
       Z.of_nat (length extra) = i - n ∧ same_io w w')
    (extra_step pm n) n (m - n + 1) es0 w)
    as (es & w' & Hrun & extra & -> & Hlen & Hio).
  - lia.
  - exists []. by rewrite app_nil_r, Z.sub_diag.
  - intros i es w1 Hi (extra & -> & Hlen & Hio).
    destruct (sample_ret pm n 2 w1) as
      (node & w2 & idxs & Hs & Hl2 & _ & _ & _ & Hio2); [lia..|].
    unfold extra_step, bind. rewrite Hs.
    destruct node as [|a [|b [|? ?]]]; simpl in Hl2; try lia.
    simpl. eexists _, _. split; [reflexivity|].
    exists (extra ++ [(a, b)]). split; [by rewrite app_assoc|].
    split; [rewrite length_app; simpl; lia|]. by eapply same_io_trans.
  - exists extra, w'. split; [done|]. split; [lia|done].
Qed.

(** [genTree] returns a shuffle of the edges [es0] of a parent vector
    [p] under the labelling [pm]. *)
Lemma genTree_shape n t w :
  0 ≤ n →
  ∃ p pm es0 es w',
    genTree n t w = Ret es w' ∧ es ≡ₚ es0 ∧
    Forall2 (tree_edge (vat p) (vat pm)) (seqZ 1 (n - 1)) es0 ∧
    (∀ i, 1 ≤ i < n → 0 ≤ vat p i < i) ∧
    pm ≡ₚ seqZ 0 n.
Proof.
  intros Hn.
  destruct (parents_ret n t w Hn) as (p & w1 & Hp & Hlp & Hpar & _).
  destruct (perm_ret n w1 Hn) as (pm & w2 & Hpm & Hperm & _).
  destruct (perm_labels pm n Hperm Hn) as (Hlpm & _).
  assert (∃ es0 w3, foldM (tree_step p pm) [] (seqZ 1 (n - 1)) w2
                    = Ret es0 w3 ∧
            Forall2 (tree_edge (vat p) (vat pm)) (seqZ 1 (n - 1)) es0)
    as (es0 & w3 & Hloop & Hall).
  { destruct (decide (n = 0)) as [->|Hne].
    - exists [], w2. rewrite foldM_seqZ_nil by lia. split; [done|].
      rewrite seqZ_nil by lia. constructor.
    - destruct (tree_loop_ret n p pm w2) as (es0 & w3 & ? & ? & _);
        [lia|done..|]. by exists es0, w3. }
  destruct (shuffle_ret es0 w3) as (es & w' & Hsh & Hshp & _).
  exists p, pm, es0, es, w'. split_and!; try done.
  unfold genTree, bind. by rewrite Hp, Hpm, Hloop.
Qed.

(** C2, as amended: for every [n >= 0], [genTree] returns
    [max (n-1) 0] edges between node ids of [0 .. n-1] that, read as
    undirected, have no cycle and connect all [n] nodes. *)
Theorem genTree_spec n t w :
  0 ≤ n →
  ∃ es w',
    genTree n t w = Ret es w' ∧
    Z.of_nat (length es) = Z.max (n - 1) 0 ∧
    Forall (λ e : edge, 0 ≤ e.1 < n ∧ 0 ≤ e.2 < n) es ∧
    acyclic es ∧
    connects n es.
Proof.
  intros Hn.
  destruct (genTree_shape n t w Hn)
    as (p & pm & es0 & es & w' & Hrun & Hperm & Hall & Hpar & Hpm).
  destruct (perm_labels pm n Hpm Hn) as (_ & Hrange & Hinj & Hsurj).
  exists es, w'. split; [done|]. split_and!.
  - rewrite Hperm, <- (Forall2_length _ _ _ Hall), length_seqZ. lia.
  - rewrite Hperm. apply Forall_forall. intros e He.
    apply list_elem_of_lookup in He as [pos Hpos].
    destruct (Forall2_lookup_r _ _ _ _ _ Hall Hpos) as (j & Hj & Hje).
    apply list_elem_of_lookup_2, elem_of_seqZ in Hj.
    pose proof (Hpar j ltac:(lia)) as Hpj.
    pose proof (Hrange j ltac:(lia)). pose proof (Hrange (vat p j) ltac:(lia)).
    destruct Hje as [->| ->]; simpl; lia.
  - eapply acyclic_perm; [exact Hperm|].
    by eapply (tree_edges_acyclic n (vat p) (vat pm)).
  - intros u v Hu Hv.
    destruct (Hsurj u Hu) as (i & Hi & <-).
    destruct (Hsurj v Hv) as (j & Hj & <-).
    eapply joined_mono; [intros e; by rewrite Hperm|].
    eapply joined_trans.
    + apply joined_sym. by eapply (tree_edges_joined n (vat p) (vat pm)).
    + by eapply (tree_edges_joined n (vat p) (vat pm)).
Qed.

(** C5, as amended: for [n = 0] and [n = 1], [genTree] returns the
    empty edge sequence. *)
Theorem genTree_small n t w :
  0 ≤ n ≤ 1 → ∃ w', genTree n t w = Ret [] w'.
Proof.
  intros Hn.
  destruct (genTree_shape n t w)
    as (p & pm & es0 & es & w' & Hrun & Hperm & Hall & _); [lia|].
  rewrite seqZ_nil in Hall by lia. apply Forall2_nil_inv_l in Hall. subst es0.
  apply Permutation_nil_r in Hperm. subst es. by exists w'.
Qed.

Lemma genTree_negative n t w : n < 0 → genTree n t w = Fatal w.
Proof.
  intros Hn. unfold genTree, bind. by rewrite parents_fatal.
Qed.

(** C6: when [m < n - 1] the assertion fails before anything else
    happens: the world, with the object behind [s] and the random source,
    is the one of the call. *)
Theorem genConnectedDirectedGraph_too_few n m s t w :
  m < n - 1 → genConnectedDirectedGraph n m s t w = Fatal w.
Proof.
  intros Hm. unfold genConnectedDirectedGraph.
  by destruct (Z.ltb_spec m (n - 1)); [|lia].
Qed.

(** C1, as amended: for [n >= 2] and [m >= n - 1], and for [n = 1]
    with [m = 0], [genConnectedDirectedGraph] returns exactly [m] edges,
    stores in [s] the first label [perm[0]] of the permutation it drew,
    and every node of [0 .. n-1] is reachable from that label along the
    returned edges. *)
Theorem genConnectedDirectedGraph_spec n m s t w :
  1 ≤ n → n - 1 ≤ m → (n = 1 → m = 0) →
  ∃ es w' p w1 pm w2 s0,
    genConnectedDirectedGraph n m s t w = Ret es w' ∧
    Z.of_nat (length es) = m ∧
    parents n t w = Ret p w1 ∧
    perm n w1 = Ret pm w2 ∧
    vget pm 0 = Some s0 ∧
    w_mem w' !! s = Some s0 ∧
    ∀ v, 0 ≤ v < n → reach es s0 v.
Proof.
  intros Hn Hm H1.
  destruct (parents_ret n t w) as (p & w1 & Hp & Hlp & Hpar & _); [lia|].
  destruct (perm_ret n w1) as (pm & w2 & Hpm & Hperm & _); [lia|].
  destruct (perm_labels pm n Hperm) as (Hlpm & Hrange & Hinj & Hsurj); [lia|].
  destruct (span_loop_ret n p pm w2 Hn Hlp Hlpm Hpar) as (es0 & Hspan & Hall).
  pose proof (vat_Some pm 0 ltac:(lia)) as Hs0.
  set (w3 := World (w_rnd w2) (<[s := vat pm 0]> (w_mem w2)) (w_cerr w2)).
  destruct (extra_loop_ret n m pm es0 w3 Hlpm Hm ltac:(lia))
    as (extra & w4 & Hextra & Hlen & Hio4).
  destruct (shuffle_ret (es0 ++ extra) w4) as (es & w' & Hsh & Hshp & Hio5).
  exists es, w', p, w1, pm, w2, (vat pm 0). split_and!; try done.
  - unfold genConnectedDirectedGraph.
    destruct (Z.ltb_spec m (n - 1)); [lia|].
    unfold bind. rewrite Hp, Hpm, Hspan, (vread_ret _ _ _ _ Hs0).
    unfold assign. fold w3. by rewrite Hextra.
  - rewrite Hshp, length_app, <- (Forall2_length _ _ _ Hall), length_seqZ.
    lia.
  - destruct Hio5 as [-> _]. destruct Hio4 as [-> _]. simpl.
    apply lookup_insert_eq.
  - intros v Hv. destruct (Hsurj v Hv) as (i & Hi & <-).
    eapply reach_mono;
      [|by eapply (down_edges_reach n (vat p) (vat pm) Hpar es0)].
    intros e He. rewrite Hshp. apply elem_of_app. by left.
Qed.

(** With a single node no further edge can be added: [sample] is
    asked for two of one node and fails in [rnd.partition], after [s]
    has been assigned. *)
Lemma genConnectedDirectedGraph_single_node m s t w :
  1 ≤ m → ∃ w', genConnectedDirectedGraph 1 m s t w = Fatal w'.
Proof.
  intros Hm.
  destruct (parents_ret 1 t w) as (p & w1 & Hp & Hlp & Hpar & _); [lia|].
  destruct (perm_ret 1 w1) as (pm & w2 & Hpm & Hperm & _); [lia|].
  destruct (perm_labels pm 1 Hperm) as (Hlpm & _); [lia|].
  pose proof (vat_Some pm 0 ltac:(lia)) as Hs0.
  unfold genConnectedDirectedGraph.
  destruct (Z.ltb_spec m (1 - 1)); [lia|].
  unfold bind at 1. rewrite Hp. unfold bind at 1. rewrite Hpm.
  unfold bind at 1. rewrite foldM_seqZ_nil by lia.
  unfold bind at 1. rewrite (vread_ret _ _ _ _ Hs0).
  unfold bind at 1, assign. unfold bind at 1.
  rewrite seqZ_cons by lia. cbn [foldM].
  unfold bind at 1, extra_step at 1, bind at 1, sample at 1, bind at 1.
  rewrite partition_fatal by lia. by eexists.
Qed.

(** Without a node, [perm] is empty and [s = perm[0]] reads outside
    it. *)
Lemma genConnectedDirectedGraph_no_node m s t w :
  -1 ≤ m → genConnectedDirectedGraph 0 m s t w = Undef.
Proof.
  intros Hm.
  destruct (parents_ret 0 t w) as (p & w1 & Hp & _); [lia|].
  destruct (perm_ret 0 w1) as (pm & w2 & Hpm & Hperm & _); [lia|].
  rewrite seqZ_nil in Hperm by lia. apply Permutation_nil_r in Hperm.
  subst pm. unfold genConnectedDirectedGraph.
  destruct (Z.ltb_spec m (0 - 1)); [lia|].
  unfold bind at 1. rewrite Hp. unfold bind at 1. rewrite Hpm.
  unfold bind at 1. rewrite foldM_seqZ_nil by lia.
  reflexivity.
Qed.

(** With a negative [n] the vector [p] cannot be built. *)
Lemma genConnectedDirectedGraph_negative n m s t w :
  n < 0 → n - 1 ≤ m → genConnectedDirectedGraph n m s t w = Fatal w.
Proof.
  intros Hn Hm. unfold genConnectedDirectedGraph.
  destruct (Z.ltb_spec m (n - 1)); [lia|].
  unfold bind. by rewrite parents_fatal.
Qed.

End Builders.

(** ** The statements on concrete inputs *)

(** [genConnectedDirectedGraph(1, 1, s)]: [m >= n - 1] holds, and the
    call fails fatally. *)
Lemma genConnectedDirectedGraph_1_1 :
  1 - 1 ≤ 1 ∧
  genConnectedDirectedGraph 1 1 0%nat 0 (tape_world [2; 7])
  = Fatal (World (RS := tape_source) [7] {[0%nat := 0]} []).
Proof. split; [lia|reflexivity]. Qed.

Lemma genConnectedDirectedGraph_spec_3_5 :
  1 ≤ 3 ∧ 3 - 1 ≤ 5 ∧ (3 = 1 → 5 = 0) ∧
  ∃ es w' p w1 pm w2 s0,
    genConnectedDirectedGraph 3 5 0%nat 0
      (tape_world [3; 1; 4; 1; 5; 9; 2; 6; 5; 3; 5]) = Ret es w' ∧
    Z.of_nat (length es) = 5 ∧
    parents 3 0 (tape_world [3; 1; 4; 1; 5; 9; 2; 6; 5; 3; 5]) = Ret p w1 ∧
    perm 3 w1 = Ret pm w2 ∧
    vget pm 0 = Some s0 ∧
    w_mem w' !! 0%nat = Some s0 ∧
    ∀ v, 0 ≤ v < 3 → reach es s0 v.
Proof.
  assert (1 ≤ 3) as H1 by lia.
  assert (3 - 1 ≤ 5) as H2 by lia.
  assert (3 = 1 → 5 = 0) as H3 by lia.
  exact (conj H1 (conj H2 (conj H3
    (genConnectedDirectedGraph_spec 3 5 0%nat 0
       (tape_world [3; 1; 4; 1; 5; 9; 2; 6; 5; 3; 5]) H1 H2 H3)))).
Defined.

(** [genTree(-3, 2)] does not return. *)
Lemma genTree_minus_3 :
  genTree (-3) 2 (tape_world [3; 1; 4]) = Fatal (tape_world [3; 1; 4]).
Proof. reflexivity. Qed.

Lemma genTree_spec_5 :
  0 ≤ 5 ∧
  ∃ es w',
    genTree 5 0 (tape_world [3; 1; 4; 1; 5; 9; 2; 6; 5; 3; 5]) = Ret es w' ∧
    Z.of_nat (length es) = Z.max (5 - 1) 0 ∧
    Forall (λ e : edge, 0 ≤ e.1 < 5 ∧ 0 ≤ e.2 < 5) es ∧
    acyclic es ∧
    connects 5 es.
Proof.
  assert (0 ≤ 5) as H by lia.
  exact (conj H (genTree_spec 5 0 _ H)).
Defined.


(** [genTree(-1)]: [n <= 1] holds, and the call does not return. *)
Lemma genTree_minus_1 :
  -1 ≤ 1 ∧ genTree (-1) 0 (tape_world []) = Fatal (tape_world []).
Proof. split; [lia|reflexivity]. Qed.

Lemma genTree_small_1 :
  0 ≤ 1 ≤ 1 ∧ ∃ w', genTree 1 0 (tape_world [3; 1]) = Ret [] w'.
Proof.
  assert (0 ≤ 1 ≤ 1) as H by lia.
  exact (conj H (genTree_small 1 0 _ H)).
Defined.

Lemma genConnectedDirectedGraph_too_few_3_1 :
  1 < 3 - 1 ∧
  genConnectedDirectedGraph 3 1 0%nat 0 (tape_world [3; 1; 4])
  = Fatal (tape_world [3; 1; 4]).
Proof.
  assert (1 < 3 - 1) as H by lia.
  exact (conj H (genConnectedDirectedGraph_too_few 3 1 0%nat 0 _ H)).
Defined.

(** [sample] on a one-element container with [length = 2] and
    [count = 1]: [1 <= count <= length] holds, the draw in [[0, 1]] can
    be 1, and the read at index 1 is outside the container. *)
Lemma sample_outside :
  1 ≤ 1 ≤ 2 ∧ sample [7] 2 1 (tape_world [-1]) = Undef.
Proof. split; [lia|reflexivity]. Qed.

(** The star with hub 0 and leaves 1, 2, 3. *)
Lemma getLeaves_spec_star :
  ends_in_range [(0, 1); (0, 2); (0, 3)] ∧
  ∃ leaf,
    getLeaves [(0, 1); (0, 2); (0, 3)] (tape_world []) =
      Ret leaf (World (RS := tape_source) [] ∅
                  ([] ++ [OStr "number of leaf is ";
                          ONum (Z.of_nat (length leaf));
                          OChar "010"%char])) ∧
    (∀ v, v ∈ leaf ↔
          0 ≤ v ≤ Z.of_nat (length [(0, 1); (0, 2); (0, 3)]) ∧
          degree [(0, 1); (0, 2); (0, 3)] v = 1%nat) ∧
    StronglySorted Z.lt leaf.
Proof.
  assert (ends_in_range [(0, 1); (0, 2); (0, 3)]) as H.
  { unfold ends_in_range. repeat constructor; simpl; lia. }
  exact (conj H (getLeaves_spec _ (tape_world []) H)).
Defined.



(** * Further properties of the generators *)

Section More.
Context {RS : RandomSource}.

(** ** [genArray] *)

(** The loop of [genArray], started at index [i] with [k] elements
    left to fill, stores the conversions of the next [k] draws after
    the elements [pre] already stored. *)
Lemma genArray_loop_draws Min Max t k :
  Min ≤ Max →
  ∀ i pre w,
  Z.of_nat (length pre) = i →
  ∃ vs w',
    wnext_draws k Min Max t w = Ret vs w' ∧
    foldM (λ arr i, bind (wnext Min Max t) (λ v, vwrite arr i (int_cast v)))
      (pre ++ replicate k 0) (seqZ i (Z.of_nat k)) w
    = Ret (pre ++ (int_cast <$> vs)) w' ∧
    length vs = k ∧
    Forall (λ v, Min ≤ v ≤ Max) vs ∧
    same_io w w'.
Proof.
  intros Hle. induction k as [|k IH]; intros i pre w Hlen.
  - exists [], w. rewrite seqZ_nil by lia. simpl. unfold ret.
    rewrite !app_nil_r. by split_and!.
  - destruct (wnext_ret Min Max t w Hle) as (v & w1 & Hd & Hv & Hio1).
    destruct (IH (i + 1) (pre ++ [int_cast v]) w1)
      as (vs & w' & Hdraws & Hrun & Hl & Hin & Hio);
      [rewrite length_app; simpl; lia|].
    exists (v :: vs), w'. split_and!.
    + cbn [wnext_draws]. unfold bind. by rewrite Hd, Hdraws.
    + rewrite seqZ_cons by lia. cbn [foldM]. unfold bind at 1 2.
      rewrite Hd, vwrite_ret
        by (rewrite length_app, length_replicate; lia).
      rewrite insert_app_r_alt by lia.
      replace (Z.to_nat i - length pre)%nat with 0%nat by lia.
      cbn [replicate list_insert insert].
      replace (Z.pred (Z.of_nat (S k))) with (Z.of_nat k) by lia.
      replace (Z.succ i) with (i + 1) by lia.
      rewrite <- !app_assoc in Hrun. simpl in Hrun. by rewrite fmap_cons.
    + simpl. by rewrite Hl.
    + by constructor.
    + by eapply same_io_trans.
Qed.

(** X1: for [n >= 0] and [Min <= Max], whatever the integer type of the
    bounds, [genArray] makes [n] successive calls of [rnd.wnext] and
    returns the conversions to [int] of the values [vs] they draw from
    [[Min, Max]], the value of the [i]-th call at index [i]; it changes
    nothing but the random source. *)
Theorem genArray_draws n Min Max t w :
  0 ≤ n → Min ≤ Max →
  ∃ vs w',
    wnext_draws (Z.to_nat n) Min Max t w = Ret vs w' ∧
    genArray n Min Max t w = Ret (int_cast <$> vs) w' ∧
    Z.of_nat (length vs) = n ∧
    Forall (λ v, Min ≤ v ≤ Max) vs ∧
    same_io w w'.
Proof.
  intros Hn Hle.
  destruct (genArray_loop_draws Min Max t (Z.to_nat n) Hle 0 [] w eq_refl)
    as (vs & w' & Hdraws & Hrun & Hlen & Hin & Hio).
  exists vs, w'. split_and!; try done; [|lia].
  unfold genArray, bind at 1. rewrite vector_new_ret by done.
  rewrite Z2Nat.id in Hrun by done. exact Hrun.
Qed.

(** X2: when the bounds are [int] values (as with [U = int]), the [n]
    returned values lie in [[Min, Max]]. *)
Theorem genArray_int_bounds n Min Max t w :
  0 ≤ n → Min ≤ Max → - 2 ^ 31 ≤ Min → Max < 2 ^ 31 →
  ∃ arr w',
    genArray n Min Max t w = Ret arr w' ∧
    Z.of_nat (length arr) = n ∧
    Forall (λ v, Min ≤ v ≤ Max) arr.
Proof.
  intros Hn Hle Hlo Hhi.
  destruct (genArray_int n Min Max t w Hn Hle Hlo Hhi)
    as (arr & w' & Hrun & Hlen & Hin).
  exists arr, w'. split; [done|]. split; [lia|done].
Qed.

(** X3: with a negative [n], [genArray], [genTree] and
    [genConnectedDirectedGraph] all fail fatally in the world of the
    call: no value is drawn, nothing is written. *)
Theorem negative_size_fatal n m Min Max s t w :
  n < 0 →
  genArray n Min Max t w = Fatal w ∧
  genTree n t w = Fatal w ∧
  genConnectedDirectedGraph n m s t w = Fatal w.
Proof.
  intros Hn. split_and!.
  - unfold genArray, bind. by rewrite vector_new_fatal.
  - by apply genTree_negative.
  - destruct (Z.lt_ge_cases m (n - 1)).
    + unfold genConnectedDirectedGraph.
      by destruct (Z.ltb_spec m (n - 1)); [|lia].
    + by apply genConnectedDirectedGraph_negative.
Qed.

(** ** [sample] *)

(** The elements found at increasing positions of a list form a
    subsequence of it. *)
Lemma sorted_lookup_sublist {A} (c : list A) :
  ∀ off idxs els,
  StronglySorted Z.lt idxs →
  Forall (λ i, off ≤ i) idxs →
  Forall2 (λ i x, c !! Z.to_nat (i - off) = Some x) idxs els →
  sublist els c.
Proof.
  induction c as [|a c IH]; intros off idxs els Hsort Hoff Hall.
  - destruct Hall as [|i x idxs els Hi _]; [constructor|].
    by rewrite lookup_nil in Hi.
  - destruct Hall as [|i x idxs els Hi Hall]; [apply sublist_nil_l|].
    apply StronglySorted_inv in Hsort as [Hsort Hlt].
    apply Forall_cons in Hoff as [Hio Hoff].
    assert (Forall (λ j, off + 1 ≤ j) idxs) as Hoff'.
    { eapply Forall_impl; [exact Hlt|]. simpl. intros j. lia. }
    assert (Forall2 (λ j y, c !! Z.to_nat (j - (off + 1)) = Some y) idxs els)
      as Hall'.
    { clear -Hall Hoff'. induction Hall as [|j y idxs els Hj _ IH'];
        [constructor|].
      apply Forall_cons in Hoff' as [Hj' Hoff']. constructor; [|by apply IH'].
      replace (Z.to_nat (j - off)) with (S (Z.to_nat (j - (off + 1))))
        in Hj by lia.
      done. }
    destruct (decide (i = off)) as [->|Hne].
    + rewrite Z.sub_diag in Hi. simpl in Hi. injection Hi as <-.
      apply sublist_skip. by eapply (IH (off + 1)).
    + apply sublist_cons. apply (IH (off + 1) (i :: idxs)).
      * by constructor.
      * constructor; [lia|done].
      * constructor; [|done].
        replace (Z.to_nat (i - off)) with (S (Z.to_nat (i - (off + 1))))
          in Hi by lia.
        done.
Qed.

(** [sample] returns a shuffle of the elements [els] that it read at
    the increasing indices [idxs]. *)
Lemma sample_shape {A} (c : list A) len count w :
  1 ≤ count ≤ len → len ≤ Z.of_nat (length c) →
  ∃ idxs els res w',
    sample c len count w = Ret res w' ∧ res ≡ₚ els ∧
    Forall2 (λ i x, vget c i = Some x) idxs els ∧
    StronglySorted Z.lt idxs ∧
    Forall (λ i, 0 ≤ i < len) idxs ∧
    Z.of_nat (length idxs) = count ∧
    same_io w w'.
Proof.
  intros Hc Hsize.
  destruct (partition_ret count len w Hc)
    as (parts & w0 & Hp & Hlen & Hpos & Hsum & Hio0).
  destruct (sample_loop_spec parts 0 w0 Hpos)
    as (idxs & w1 & Hl & Hin & Hsort & Hio1 & Hrun).
  assert (Forall (λ i, 0 ≤ i < len) idxs) as Hin'.
  { eapply Forall_impl; [exact Hin|]. simpl. intros i. lia. }
  destruct (mapM_vget_in_range c idxs) as [els Hels].
  { eapply Forall_impl; [exact Hin'|]. simpl. intros i. lia. }
  destruct (shuffle_ret els w1) as (res & w' & Hsh & Hperm & Hio2).
  exists idxs, els, res, w'. split_and!; try done.
  - unfold sample, bind. rewrite Hp, Hrun, Hels. simpl. done.
  - by apply mapM_Some.
  - lia.
  - eapply same_io_trans; [|exact Hio2]. by eapply same_io_trans.
Qed.

Lemma sample_sublist {A} (c : list A) len idxs els :
  Forall2 (λ i x, vget c i = Some x) idxs els →
  StronglySorted Z.lt idxs →
  Forall (λ i, 0 ≤ i < len) idxs →
  sublist els (take (Z.to_nat len) c).
Proof.
  intros Hall Hsort Hin.
  apply (sorted_lookup_sublist _ 0 idxs els Hsort).
  - eapply Forall_impl; [exact Hin|]. simpl. intros i. lia.
  - clear Hsort. induction Hall as [|i x idxs els Hi _ IH]; [constructor|].
    apply Forall_cons in Hin as [Hilt Hin]. constructor; [|by apply IH].
    apply vget_Some in Hi as [_ Hi].
    rewrite Z.sub_0_r, lookup_take_lt by lia. done.
Qed.

(** X4: for [1 <= count <= length <= container.size()], [sample]
    returns [count] elements that are, up to their order, a subsequence
    of the first [length] elements of the container (each position is
    used at most once), and it changes nothing but the random source. *)
Theorem sample_subsequence {A} (c : list A) len count w :
  1 ≤ count ≤ len → len ≤ Z.of_nat (length c) →
  ∃ els res w',
    sample c len count w = Ret res w' ∧
    res ≡ₚ els ∧
    sublist els (take (Z.to_nat len) c) ∧
    Z.of_nat (length res) = count ∧
    same_io w w'.
Proof.
  intros Hc Hsize.
  destruct (sample_shape c len count w Hc Hsize)
    as (idxs & els & res & w' & Hrun & Hperm & Hall & Hsort & Hin & Hlen & Hio).
  exists els, res, w'. split_and!; try done.
  - by eapply sample_sublist.
  - by rewrite Hperm, <- (Forall2_length _ _ _ Hall).
Qed.

Lemma sublist_full {A} (l k : list A) :
  sublist l k → (length k ≤ length l)%nat → l = k.
Proof.
  induction 1 as [|x l k Hs IH|x l k Hs IH]; intros Hlen; [done| |].
  - f_equal. apply IH. simpl in Hlen. lia.
  - apply sublist_length in Hs. simpl in Hlen. lia.
Qed.

(** X5: asked for as many elements as the container has, [sample]
    returns a permutation of the container. *)
Theorem sample_all {A} (c : list A) w :
  c ≠ [] →
  ∃ res w',
    sample c (Z.of_nat (length c)) (Z.of_nat (length c)) w = Ret res w' ∧
    res ≡ₚ c.
Proof.
  intros Hne.
  assert (1 ≤ Z.of_nat (length c)) as Hpos by (destruct c; [done|simpl; lia]).
  destruct (sample_shape c (Z.of_nat (length c)) (Z.of_nat (length c)) w)
    as (idxs & els & res & w' & Hrun & Hperm & Hall & Hsort & Hin & Hlen & _);
    [lia..|].
  exists res, w'. split; [done|]. rewrite Hperm.
  pose proof (sample_sublist c _ idxs els Hall Hsort Hin) as Hsub.
  rewrite Nat2Z.id, firstn_all in Hsub.
  rewrite (sublist_full els c Hsub); [done|].
  rewrite <- (Forall2_length _ _ _ Hall). lia.
Qed.

(** X6: if the first [length] elements of the container are pairwise
    distinct, so are the elements [sample] returns. *)
Theorem sample_NoDup {A} (c : list A) len count w :
  1 ≤ count ≤ len → len ≤ Z.of_nat (length c) →
  NoDup (take (Z.to_nat len) c) →
  ∃ res w', sample c len count w = Ret res w' ∧ NoDup res.
Proof.
  intros Hc Hsize Hnd.
  destruct (sample_shape c len count w Hc Hsize)
    as (idxs & els & res & w' & Hrun & Hperm & Hall & Hsort & Hin & _).
  exists res, w'. split; [done|]. rewrite Hperm.
  apply (sublist_NoDup els (take (Z.to_nat len) c)); [done|].
  by eapply sample_sublist.
Qed.

(** ** [getLeaves] *)

Lemma getLeaves_undef edges w :
  ¬ ends_in_range edges → getLeaves edges w = Undef.
Proof.
  intros Hout. unfold getLeaves, bind at 1. rewrite vector_new_ret by lia.
  unfold bind at 1.
  rewrite (count_loop_undef (Z.of_nat (length edges) + 1)); [done| |].
  - rewrite length_replicate. lia.
  - rewrite ends_in_range_below in Hout.
    by apply not_Forall_Exists in Hout; [|apply _].
Qed.

(** [getLeaves] depends on the edge list only through its size and the
    degrees it gives. *)
Lemma getLeaves_same E E' w :
  length E = length E' →
  (∀ v, degree E v = degree E' v) →
  (ends_in_range E ↔ ends_in_range E') →
  getLeaves E w = getLeaves E' w.
Proof.
  intros Hlen Hdeg Hrange.
  destruct (decide (ends_in_range E)) as [Hin|Hout].
  - pose proof (getLeaves_ret E w Hin) as H1.
    pose proof (getLeaves_ret E' w (proj1 Hrange Hin)) as H2.
    cbv zeta in H1, H2. rewrite H1, H2, Hlen.
    by rewrite (list_filter_iff (λ v, degree E v = 1%nat)
                  (λ v, degree E' v = 1%nat))
      by (intros v; by rewrite Hdeg).
  - rewrite !getLeaves_undef; [done| |done]. by rewrite <- Hrange.
Qed.

(** X7: [getLeaves] does not depend on the order of the edges: on a
    permutation of the edge list it has the same outcome (the same
    leaves and output, or the same access outside the degree array). *)
Theorem getLeaves_perm E E' w :
  E ≡ₚ E' → getLeaves E w = getLeaves E' w.
Proof.
  intros Hperm. apply getLeaves_same.
  - by rewrite Hperm.
  - intros v. unfold degree. by rewrite Hperm.
  - unfold ends_in_range. rewrite (Permutation_length Hperm).
    by rewrite Hperm.
Qed.

(** X8: [getLeaves] does not depend on the direction of the edges:
    reversing every edge leaves its outcome unchanged. *)
Theorem getLeaves_flip E w :
  getLeaves (prod_swap <$> E) w = getLeaves E w.
Proof.
  apply getLeaves_same.
  - apply length_fmap.
  - intros v. unfold degree.
    induction E as [|[a b] E IH]; [done|]. rewrite fmap_cons.
    rewrite !filter_cons. simpl.
    destruct (decide (a = v)), (decide (b = v)); simpl; lia.
  - unfold ends_in_range. rewrite Forall_fmap, length_fmap.
    apply Forall_proper; [|done]. intros [a b]. simpl. lia.
Qed.

(** ** [getLeaves] on the trees of [genTree] *)

(** What [genTree] returns, as a graph. *)
Lemma genTree_graph n t w :
  0 ≤ n →
  ∃ es w',
    genTree n t w = Ret es w' ∧
    Z.of_nat (length es) = Z.max (n - 1) 0 ∧
    Forall (λ e : edge, 0 ≤ e.1 < n ∧ 0 ≤ e.2 < n) es ∧
    connects n es ∧
    acyclic es.
Proof.
  intros Hn.
  destruct (genTree_shape n t w Hn)
    as (p & pm & es0 & es & w' & Hrun & Hperm & Hall & Hpar & Hpm).
  destruct (perm_labels pm n Hpm Hn) as (_ & Hrange & Hinj & Hsurj).
  exists es, w'. split; [done|]. split_and!.
  - rewrite Hperm, <- (Forall2_length _ _ _ Hall), length_seqZ. lia.
  - rewrite Hperm. apply Forall_forall. intros e He.
    apply list_elem_of_lookup in He as [pos Hpos].
    destruct (Forall2_lookup_r _ _ _ _ _ Hall Hpos) as (j & Hj & Hje).
    apply list_elem_of_lookup_2, elem_of_seqZ in Hj.
    pose proof (Hpar j ltac:(lia)) as Hpj.
    pose proof (Hrange j ltac:(lia)). pose proof (Hrange (vat p j) ltac:(lia)).
    destruct Hje as [->| ->]; simpl; lia.
  - intros u v Hu Hv.
    destruct (Hsurj u Hu) as (i & Hi & <-).
    destruct (Hsurj v Hv) as (j & Hj & <-).
    eapply joined_mono; [intros e; by rewrite Hperm|].
    eapply joined_trans.
    + apply joined_sym. by eapply (tree_edges_joined n (vat p) (vat pm)).
    + by eapply (tree_edges_joined n (vat p) (vat pm)).
  - eapply acyclic_perm; [exact Hperm|].
    by eapply (tree_edges_acyclic n (vat p) (vat pm)).
Qed.

Lemma joined_last E u v : joined E u v → u ≠ v → ∃ x, adj E x v.
Proof. destruct 1 as [|x y _ Hxy]; [done|]. by exists x. Qed.

Lemma filter_length_pos {A} (P : A → Prop) `{∀ x, Decision (P x)} l x :
  x ∈ l → P x → (1 ≤ length (filter P l))%nat.
Proof.
  intros Hx HP. assert (x ∈ filter P l) as Hin
    by (by apply list_elem_of_filter).
  destruct (filter P l); [by apply not_elem_of_nil in Hin|simpl; lia].
Qed.

Lemma adj_degree E x v : adj E x v → (1 ≤ degree E v)%nat.
Proof.
  unfold degree. intros [Hin|Hin].
  - pose proof (filter_length_pos (λ e : edge, e.2 = v) E (x, v) Hin eq_refl).
    lia.
  - pose proof (filter_length_pos (λ e : edge, e.1 = v) E (v, x) Hin eq_refl).
    lia.
Qed.

Lemma sum_list_with_add {A} (f g : A → nat) l :
  sum_list_with (λ x, f x + g x)%nat l
  = (sum_list_with f l + sum_list_with g l)%nat.
Proof. induction l as [|x l IH]; simpl; lia. Qed.

Lemma sum_list_with_eq {A} (f g : A → nat) l :
  (∀ x, f x = g x) → sum_list_with f l = sum_list_with g l.
Proof. intros Hfg. induction l as [|x l IH]; simpl; [done|]. by rewrite Hfg, IH. Qed.

Lemma sum_indicator_le (x : Z) vs :
  NoDup vs →
  (sum_list_with (λ v, if decide (x = v) then 1 else 0) vs ≤ 1)%nat.
Proof.
  induction 1 as [|v vs Hv Hnd IH]; simpl; [lia|].
  destruct (decide (x = v)) as [->|Hne]; [|lia].
  assert (sum_list_with (λ u, if decide (v = u) then 1 else 0) vs = 0)%nat
    as ->; [|lia].
  clear -Hv. induction vs as [|u vs IH]; simpl; [done|].
  apply not_elem_of_cons in Hv as [Hne Hv].
  rewrite decide_False by done. by rewrite IH.
Qed.

(** Each element of [E] is counted for at most one of the pairwise
    distinct keys [vs]. *)
Lemma count_sum_le {B} (g : B → Z) (E : list B) vs :
  NoDup vs →
  (sum_list_with (λ v, length (filter (λ e, g e = v) E)) vs ≤ length E)%nat.
Proof.
  intros Hnd. induction E as [|e E IH]; simpl.
  - induction vs as [|v vs IHv]; simpl; [lia|].
    apply NoDup_cons in Hnd as [_ Hnd]. specialize (IHv Hnd). lia.
  - rewrite (sum_list_with_eq
      (λ v, length (filter (λ e0, g e0 = v) (e :: E)))
      (λ v, (if decide (g e = v) then 1 else 0)
            + length (filter (λ e0, g e0 = v) E))%nat).
    + rewrite sum_list_with_add.
      pose proof (sum_indicator_le (g e) vs Hnd). lia.
    + intros v. rewrite filter_cons. by destruct (decide (g e = v)).
Qed.

Lemma leaves_lower_bound (f : Z → nat) vs :
  Forall (λ v, 1 ≤ f v)%nat vs →
  (2 * length vs
   ≤ sum_list_with f vs + length (filter (λ v, f v = 1%nat) vs))%nat.
Proof.
  induction 1 as [|v vs Hv _ IH]; simpl; [lia|].
  rewrite filter_cons. destruct (decide (f v = 1%nat)); simpl; lia.
Qed.

(** X9: [getLeaves] accepts every tree that [genTree] returns ([n >=
    0]): it makes no access outside its degree array; and for [n >= 2]
    it finds at least two leaves. *)
Theorem genTree_getLeaves n t w :
  0 ≤ n →
  ∃ es w1 leaf w2,
    genTree n t w = Ret es w1 ∧
    getLeaves es w1 = Ret leaf w2 ∧
    (2 ≤ n → (2 ≤ length leaf)%nat).
Proof.
  intros Hn.
  destruct (genTree_graph n t w Hn)
    as (es & w1 & Hrun & Hlen & Hin & Hconn & _).
  assert (ends_in_range es) as Hrange.
  { unfold ends_in_range. eapply Forall_impl; [exact Hin|]. simpl.
    intros e. lia. }
  pose proof (getLeaves_ret es w1 Hrange) as Hleaf. cbv zeta in Hleaf.
  eexists es, w1, _, _. split; [done|]. split; [exact Hleaf|].
  intros Hn2.
  replace (Z.of_nat (length es) + 1) with n by lia.
  assert (Forall (λ v, 1 ≤ degree es v)%nat (seqZ 0 n)) as Hpos.
  { apply Forall_seqZ. intros v Hv.
    set (u := if decide (v = 0) then 1 else 0).
    assert (0 ≤ u < n ∧ u ≠ v) as [Hu Huv].
    { unfold u. destruct (decide (v = 0)); lia. }
    destruct (joined_last es u v) as [x Hx]; [by apply Hconn; lia|done|].
    by eapply adj_degree. }
  pose proof (leaves_lower_bound (degree es) (seqZ 0 n) Hpos) as Hlow.
  rewrite length_seqZ in Hlow.
  assert (sum_list_with (degree es) (seqZ 0 n) ≤ 2 * length es)%nat as Hup.
  { unfold degree. rewrite sum_list_with_add.
    pose proof (count_sum_le (λ e : edge, e.1) es (seqZ 0 n) (NoDup_seqZ _ _)).
    pose proof (count_sum_le (λ e : edge, e.2) es (seqZ 0 n) (NoDup_seqZ _ _)).
    lia. }
  lia.
Qed.

(** ** [genConnectedDirectedGraph] *)

(** The further edges join two different labels of [perm]. *)
Lemma extra_loop_edges n m pm es0 w :
  Z.of_nat (length pm) = n → NoDup pm → n - 1 ≤ m → (n ≤ m → 2 ≤ n) →
  ∃ extra w', foldM (extra_step pm n) es0 (seqZ n (m - n + 1)) w
              = Ret (es0 ++ extra) w' ∧
    Z.of_nat (length extra) = m - n + 1 ∧
    Forall (λ e : edge, e.1 ∈ pm ∧ e.2 ∈ pm ∧ e.1 ≠ e.2) extra ∧
    same_io w w'.
Proof.
  intros Hlpm Hnd Hm Hn2.
  destruct (for_ret
    (λ i (es : list edge) w', ∃ extra, es = es0 ++ extra ∧
       Z.of_nat (length extra) = i - n ∧
       Forall (λ e : edge, e.1 ∈ pm ∧ e.2 ∈ pm ∧ e.1 ≠ e.2) extra ∧
       same_io w w')
    (extra_step pm n) n (m - n + 1) es0 w)
    as (es & w' & Hrun & extra & -> & Hlen & Hall & Hio).
  - lia.
  - exists []. rewrite app_nil_r, Z.sub_diag. by repeat split.
  - intros i es w1 Hi (extra & -> & Hlen & Hall & Hio).
    destruct (sample_ret pm n 2 w1) as
      (node & w2 & idxs & Hs & Hl2 & Hndi & _ & Hrd & Hio2); [lia..|].
    unfold extra_step, bind. rewrite Hs.
    destruct node as [|a [|b [|? ?]]]; simpl in Hl2; try lia.
    simpl. eexists _, _. split; [reflexivity|].
    exists (extra ++ [(a, b)]). split; [by rewrite app_assoc|].
    split; [rewrite length_app; simpl; lia|].
    split; [|by eapply same_io_trans].
    apply Forall_app. split; [done|]. constructor; [|constructor].
    apply Forall2_cons_inv_r in Hrd as (i1 & idxs1 & Ha & Hrd & ->).
    apply Forall2_cons_inv_r in Hrd as (i2 & idxs2 & Hb & Hrd & ->).
    apply vget_Some in Ha as [Hi1 Ha]. apply vget_Some in Hb as [Hi2 Hb].
    simpl. split_and!.
    + by eapply list_elem_of_lookup_2.
    + by eapply list_elem_of_lookup_2.
    + intros ->. pose proof (NoDup_lookup _ _ _ _ Hnd Ha Hb) as Heq.
      apply NoDup_cons in Hndi as [Hnot _]. apply Hnot.
      replace i1 with i2 by lia. by left.
  - exists extra, w'. split; [done|]. split; [lia|done].
Qed.

(** [genConnectedDirectedGraph] returns a shuffle of the spanning edges
    [es0] followed by the further edges [extra], and writes [perm[0]] to
    [s]. *)
Lemma genConnectedDirectedGraph_shape n m s t w :
  1 ≤ n → n - 1 ≤ m → (n = 1 → m = 0) →
  ∃ p pm es0 extra es w',
    genConnectedDirectedGraph n m s t w = Ret es w' ∧
    es ≡ₚ es0 ++ extra ∧
    Forall2 (down_edge (vat p) (vat pm)) (seqZ 1 (n - 1)) es0 ∧
    (∀ i, 1 ≤ i < n → 0 ≤ vat p i < i) ∧
    pm ≡ₚ seqZ 0 n ∧
    Z.of_nat (length extra) = m - n + 1 ∧
    Forall (λ e : edge, e.1 ∈ pm ∧ e.2 ∈ pm ∧ e.1 ≠ e.2) extra ∧
    w_mem w' = <[s := vat pm 0]> (w_mem w) ∧
    w_cerr w' = w_cerr w.
Proof.
  intros Hn Hm H1.
  destruct (parents_ret n t w) as (p & w1 & Hp & Hlp & Hpar & Hio1); [lia|].
  destruct (perm_ret n w1) as (pm & w2 & Hpm & Hperm & Hio2); [lia|].
  destruct (perm_labels pm n Hperm) as (Hlpm & _); [lia|].
  assert (NoDup pm) as Hnd by (rewrite Hperm; apply NoDup_seqZ).
  destruct (span_loop_ret n p pm w2 Hn Hlp Hlpm Hpar) as (es0 & Hspan & Hall).
  pose proof (vat_Some pm 0 ltac:(lia)) as Hs0.
  set (w3 := World (w_rnd w2) (<[s := vat pm 0]> (w_mem w2)) (w_cerr w2)).
  destruct (extra_loop_edges n m pm es0 w3 Hlpm Hnd Hm ltac:(lia))
    as (extra & w4 & Hextra & Hlen & Hex & Hio4).
  destruct (shuffle_ret (es0 ++ extra) w4) as (es & w' & Hsh & Hshp & Hio5).
  exists p, pm, es0, extra, es, w'. split_and!; try done.
  - unfold genConnectedDirectedGraph.
    destruct (Z.ltb_spec m (n - 1)); [lia|].
    unfold bind. rewrite Hp, Hpm, Hspan, (vread_ret _ _ _ _ Hs0).
    unfold assign. fold w3. by rewrite Hextra.
  - destruct Hio5 as [-> _]. destruct Hio4 as [-> _]. simpl.
    destruct Hio2 as [-> _]. by destruct Hio1 as [-> _].
  - destruct Hio5 as [_ ->]. destruct Hio4 as [_ ->]. simpl.
    destruct Hio2 as [_ ->]. by destruct Hio1 as [_ ->].
Qed.

(** X10: every edge that [genConnectedDirectedGraph] returns joins two
    different nodes of [0 .. n-1]: there is no self-loop and no foreign
    node id. *)
Theorem genConnectedDirectedGraph_edges n m s t w :
  1 ≤ n → n - 1 ≤ m → (n = 1 → m = 0) →
  ∃ es w',
    genConnectedDirectedGraph n m s t w = Ret es w' ∧
    Forall (λ e : edge, 0 ≤ e.1 < n ∧ 0 ≤ e.2 < n ∧ e.1 ≠ e.2) es.
Proof.
  intros Hn Hm H1.
  destruct (genConnectedDirectedGraph_shape n m s t w Hn Hm H1)
    as (p & pm & es0 & extra & es & w' & Hrun & Hperm & Hall & Hpar & Hpm
        & _ & Hex & _).
  destruct (perm_labels pm n Hpm) as (_ & Hrange & Hinj & _); [lia|].
  exists es, w'. split; [done|]. rewrite Hperm. apply Forall_app. split.
  - apply Forall_forall. intros e He.
    apply list_elem_of_lookup in He as [pos Hpos].
    destruct (Forall2_lookup_r _ _ _ _ _ Hall Hpos) as (j & Hj & ->).
    apply list_elem_of_lookup_2, elem_of_seqZ in Hj.
    pose proof (Hpar j ltac:(lia)) as Hpj.
    pose proof (Hrange j ltac:(lia)). pose proof (Hrange (vat p j) ltac:(lia)).
    simpl. split_and!; try lia.
    intros Heq. apply Hinj in Heq; lia.
  - eapply Forall_impl; [exact Hex|]. simpl. intros e (Ha & Hb & Hne).
    rewrite Hpm in Ha, Hb. apply elem_of_seqZ in Ha, Hb. lia.
Qed.

Lemma down_edges_heads par lab l es :
  Forall2 (down_edge par lab) l es → es.*2 = lab <$> l.
Proof.
  induction 1 as [|j e l es He _ IH]; [done|].
  rewrite !fmap_cons, IH. by rewrite He.
Qed.

(** X11: with [m = n - 1] the returned graph is the spanning tree
    rooted at the start node: the heads of its edges are the nodes other
    than the start node, each exactly once (the start node has no
    incoming edge, every other node has one). *)
Theorem genConnectedDirectedGraph_rooted_tree n s t w :
  1 ≤ n →
  ∃ es w' s0,
    genConnectedDirectedGraph n (n - 1) s t w = Ret es w' ∧
    w_mem w' !! s = Some s0 ∧
    es.*2 ≡ₚ filter (λ v, v ≠ s0) (seqZ 0 n).
Proof.
  intros Hn.
  destruct (genConnectedDirectedGraph_shape n (n - 1) s t w Hn)
    as (p & pm & es0 & extra & es & w' & Hrun & Hperm & Hall & Hpar & Hpm
        & Hlen & _ & Hmem & _); [lia..|].
  destruct (perm_labels pm n Hpm) as (_ & Hrange & Hinj & Hsurj); [lia|].
  destruct extra; [|simpl in Hlen; lia]. rewrite app_nil_r in Hperm.
  exists es, w', (vat pm 0). split; [done|].
  split; [rewrite Hmem; apply lookup_insert_eq|].
  rewrite Hperm, (down_edges_heads _ _ _ _ Hall).
  apply list.NoDup_Permutation.
  - apply NoDup_fmap_2_strong; [|apply NoDup_seqZ].
    intros i j Hi Hj. apply elem_of_seqZ in Hi, Hj. apply Hinj; lia.
  - apply NoDup_filter, NoDup_seqZ.
  - intros v. rewrite list_elem_of_fmap, list_elem_of_filter, elem_of_seqZ.
    split.
    + intros (i & -> & Hi). apply elem_of_seqZ in Hi.
      pose proof (Hrange i ltac:(lia)). split; [|lia].
      intros Heq. apply Hinj in Heq; lia.
    + intros [Hne Hv]. destruct (Hsurj v ltac:(lia)) as (i & Hi & <-).
      exists i. split; [done|]. apply elem_of_seqZ.
      destruct (decide (i = 0)) as [->|?]; [done|lia].
Qed.

(** X12: a call that returns has written [perm[0]] to the object behind
    [s] and to no other object, and has printed nothing. *)
Theorem genConnectedDirectedGraph_frame n m s t w :
  1 ≤ n → n - 1 ≤ m → (n = 1 → m = 0) →
  ∃ es w' s0,
    genConnectedDirectedGraph n m s t w = Ret es w' ∧
    w_mem w' = <[s := s0]> (w_mem w) ∧
    w_cerr w' = w_cerr w.
Proof.
  intros Hn Hm H1.
  destruct (genConnectedDirectedGraph_shape n m s t w Hn Hm H1)
    as (p & pm & es0 & extra & es & w' & Hrun & _ & _ & _ & _ & _ & _
        & Hmem & Hcerr).
  by exists es, w', (vat pm 0).
Qed.

(** X13: with one node and [m >= 1] the call fails fatally only after
    the assignment [s = perm[0]]: at the failure the object behind [s]
    holds 0. *)
Theorem genConnectedDirectedGraph_single_node_partial m s t w :
  1 ≤ m →
  ∃ w', genConnectedDirectedGraph 1 m s t w = Fatal w' ∧
        w_mem w' = <[s := 0]> (w_mem w) ∧
        w_cerr w' = w_cerr w.
Proof.
  intros Hm.
  destruct (parents_ret 1 t w) as (p & w1 & Hp & Hlp & Hpar & Hio1); [lia|].
  destruct (perm_ret 1 w1) as (pm & w2 & Hpm & Hperm & Hio2); [lia|].
  change (seqZ 0 1) with [0] in Hperm.
  apply Permutation_singleton_r in Hperm. subst pm.
  eexists. split.
  - unfold genConnectedDirectedGraph.
    destruct (Z.ltb_spec m (1 - 1)); [lia|].
    unfold bind at 1. rewrite Hp. unfold bind at 1. rewrite Hpm.
    unfold bind at 1. rewrite foldM_seqZ_nil by lia.
    unfold bind at 1. rewrite (vread_ret [0] 0 0) by done.
    unfold bind at 1, assign. unfold bind at 1.
    rewrite seqZ_cons by lia. cbn [foldM].
    unfold bind at 1, extra_step at 1, bind at 1, sample at 1, bind at 1.
    rewrite partition_fatal by lia. reflexivity.
  - simpl. destruct Hio2 as [-> ->]. by destruct Hio1 as [-> ->].
Qed.

(** X14: with [n = 0] (and [m >= -1], so that the assertion holds) the
    permutation is empty and [s = perm[0]] reads outside it. *)
Theorem genConnectedDirectedGraph_empty_perm m s t w :
  -1 ≤ m → genConnectedDirectedGraph 0 m s t w = Undef.
Proof. apply genConnectedDirectedGraph_no_node. Qed.

(** ** More on [genTree] *)

(** X15: the tree that [genTree] returns is a simple graph: no edge is a
    self-loop, and no two of its edges join the same two nodes, in
    either direction. *)
Theorem genTree_simple n t w :
  0 ≤ n →
  ∃ es w',
    genTree n t w = Ret es w' ∧
    Forall (λ e : edge, e.1 ≠ e.2) es ∧
    ∀ i j a b, i ≠ j → es !! i = Some a → es !! j = Some b →
               b ≠ a ∧ b ≠ prod_swap a.
Proof.
  intros Hn.
  destruct (genTree_graph n t w Hn) as (es & w' & Hrun & _ & _ & _ & Hacyc).
  exists es, w'. split; [done|]. split.
  - apply Forall_forall. intros e He Heq.
    apply list_elem_of_lookup in He as [i Hi].
    apply (Hacyc (take i es) e (drop (S i) es)).
    + by rewrite take_drop_middle.
    + rewrite Heq. constructor.
  - intros i j a b Hij Hi Hj.
    assert (b ∈ take i es ++ drop (S i) es) as Hb.
    { apply elem_of_app. destruct (decide (j < i)%nat) as [Hlt|Hge].
      - left. eapply list_elem_of_lookup_2. by rewrite lookup_take_lt.
      - right. apply (list_elem_of_lookup_2 _ (j - S i)).
        rewrite lookup_drop. by replace (S i + (j - S i))%nat with j by lia. }
    pose proof (Hacyc (take i es) a (drop (S i) es)
                  (eq_sym (take_drop_middle es i a Hi))) as Hno.
    split; intros ->; apply Hno;
      (eapply joined_step; [constructor|]); destruct a as [u v].
    + by left.
    + by right.
Qed.

(** ** [getLeaves] on the graphs of [genConnectedDirectedGraph] *)

(** X16: [getLeaves] makes no access outside its degree array on a
    graph that [genConnectedDirectedGraph] returns: it has at least
    [n - 1] edges over the node ids [0 .. n-1]. *)
Theorem genConnectedDirectedGraph_getLeaves n m s t w :
  1 ≤ n → n - 1 ≤ m → (n = 1 → m = 0) →
  ∃ es w1 leaf w2,
    genConnectedDirectedGraph n m s t w = Ret es w1 ∧
    getLeaves es w1 = Ret leaf w2.
Proof.
  intros Hn Hm H1.
  destruct (genConnectedDirectedGraph_shape n m s t w Hn Hm H1)
    as (p & pm & es0 & extra & es & w1 & Hrun & Hperm & Hall & Hpar & Hpm
        & Hlen & Hex & _).
  destruct (perm_labels pm n Hpm) as (_ & Hrange & _); [lia|].
  assert (Z.of_nat (length es) = m) as Hsize.
  { rewrite Hperm, length_app, <- (Forall2_length _ _ _ Hall), length_seqZ.
    lia. }
  assert (ends_in_range es) as Hin.
  { unfold ends_in_range. rewrite Hsize, Hperm. apply Forall_app. split.
    - apply Forall_forall. intros e He.
      apply list_elem_of_lookup in He as [pos Hpos].
      destruct (Forall2_lookup_r _ _ _ _ _ Hall Hpos) as (j & Hj & ->).
      apply list_elem_of_lookup_2, elem_of_seqZ in Hj.
      pose proof (Hpar j ltac:(lia)) as Hpj.
      pose proof (Hrange j ltac:(lia)).
      pose proof (Hrange (vat p j) ltac:(lia)). simpl. lia.
    - eapply Forall_impl; [exact Hex|]. simpl. intros e (Ha & Hb & _).
      rewrite Hpm in Ha, Hb. apply elem_of_seqZ in Ha, Hb. lia. }
  pose proof (getLeaves_ret es w1 Hin) as Hleaf. cbv zeta in Hleaf.
  by eexists es, w1, _, _.
Qed.

End More.

(** ** The further properties on concrete inputs *)

Lemma genArray_draws_3 :
  0 ≤ 3 ∧ 5 ≤ 10 ∧
  ∃ vs w',
    wnext_draws (Z.to_nat 3) 5 10 0 (tape_world [3; 1; 4; 1]) = Ret vs w' ∧
    genArray 3 5 10 0 (tape_world [3; 1; 4; 1]) = Ret (int_cast <$> vs) w' ∧
    Z.of_nat (length vs) = 3 ∧
    Forall (λ v, 5 ≤ v ≤ 10) vs ∧
    same_io (tape_world [3; 1; 4; 1]) w'.
Proof.
  assert (0 ≤ 3) as H1 by lia. assert (5 ≤ 10) as H2 by lia.
  exact (conj H1 (conj H2 (genArray_draws 3 5 10 0 _ H1 H2))).
Defined.

Lemma genArray_int_bounds_3 :
  0 ≤ 3 ∧ 5 ≤ 10 ∧ - 2 ^ 31 ≤ 5 ∧ 10 < 2 ^ 31 ∧
  ∃ arr w',
    genArray 3 5 10 0 (tape_world [3; 1; 4; 1]) = Ret arr w' ∧
    Z.of_nat (length arr) = 3 ∧
    Forall (λ v, 5 ≤ v ≤ 10) arr.
Proof.
  assert (0 ≤ 3) as H1 by lia. assert (5 ≤ 10) as H2 by lia.
  assert (- 2 ^ 31 ≤ 5) as H3 by lia. assert (10 < 2 ^ 31) as H4 by lia.
  exact (conj H1 (conj H2 (conj H3 (conj H4
    (genArray_int_bounds 3 5 10 0 _ H1 H2 H3 H4))))).
Defined.

Lemma negative_size_fatal_minus_2 :
  -2 < 0 ∧
  genArray (-2) 0 9 0 (tape_world [3; 1]) = Fatal (tape_world [3; 1]) ∧
  genTree (-2) 0 (tape_world [3; 1]) = Fatal (tape_world [3; 1]) ∧
  genConnectedDirectedGraph (-2) 4 0%nat 0 (tape_world [3; 1])
  = Fatal (tape_world [3; 1]).
Proof.
  assert (-2 < 0) as H by lia.
  exact (conj H (negative_size_fatal (-2) 4 0 9 0%nat 0 _ H)).
Defined.

Lemma sample_subsequence_5_3 :
  1 ≤ 3 ≤ 4 ∧ 4 ≤ Z.of_nat (length [10; 20; 30; 40; 50]) ∧
  ∃ els (res : list Z) w',
    sample [10; 20; 30; 40; 50] 4 3 (tape_world [3; 1; 4; 1; 5]) = Ret res w' ∧
    res ≡ₚ els ∧
    sublist els (take (Z.to_nat 4) [10; 20; 30; 40; 50]) ∧
    Z.of_nat (length res) = 3 ∧
    same_io (tape_world [3; 1; 4; 1; 5]) w'.
Proof.
  assert (1 ≤ 3 ≤ 4) as H1 by lia.
  assert (4 ≤ Z.of_nat (length [10; 20; 30; 40; 50])) as H2 by (simpl; lia).
  exact (conj H1 (conj H2 (sample_subsequence _ 4 3 _ H1 H2))).
Defined.

Lemma sample_all_3 :
  [7; 8; 9] ≠ [] ∧
  ∃ res w',
    sample [7; 8; 9] (Z.of_nat (length [7; 8; 9]))
      (Z.of_nat (length [7; 8; 9])) (tape_world [2; 0; 1; 1]) = Ret res w' ∧
    res ≡ₚ [7; 8; 9].
Proof.
  assert ([7; 8; 9] ≠ @nil Z) as H by discriminate.
  exact (conj H (sample_all [7; 8; 9] (tape_world [2; 0; 1; 1]) H)).
Defined.

Lemma sample_NoDup_4_2 :
  1 ≤ 2 ≤ 3 ∧ 3 ≤ Z.of_nat (length [4; 5; 6; 4]) ∧
  NoDup (take (Z.to_nat 3) [4; 5; 6; 4]) ∧
  ∃ res w',
    sample [4; 5; 6; 4] 3 2 (tape_world [1; 1; 0]) = Ret res w' ∧ NoDup res.
Proof.
  assert (1 ≤ 2 ≤ 3) as H1 by lia.
  assert (3 ≤ Z.of_nat (length [4; 5; 6; 4])) as H2 by (simpl; lia).
  assert (NoDup (take (Z.to_nat 3) [4; 5; 6; 4])) as H3
    by (apply (bool_decide_unpack _); reflexivity).
  exact (conj H1 (conj H2 (conj H3 (sample_NoDup _ 3 2 _ H1 H2 H3)))).
Defined.

Lemma getLeaves_perm_path :
  [(0, 1); (1, 2)] ≡ₚ [(1, 2); (0, 1)] ∧
  getLeaves [(0, 1); (1, 2)] (tape_world [])
  = getLeaves [(1, 2); (0, 1)] (tape_world []).
Proof.
  assert ([(0, 1); (1, 2)] ≡ₚ [(1, 2); (0, 1)]) as H by apply perm_swap.
  exact (conj H (getLeaves_perm _ _ (tape_world []) H)).
Defined.

Lemma genTree_getLeaves_5 :
  0 ≤ 5 ∧
  ∃ es w1 leaf w2,
    genTree 5 0 (tape_world [3; 1; 4; 1; 5; 9; 2; 6; 5; 3; 5]) = Ret es w1 ∧
    getLeaves es w1 = Ret leaf w2 ∧
    (2 ≤ 5 → (2 ≤ length leaf)%nat).
Proof.
  assert (0 ≤ 5) as H by lia.
  exact (conj H (genTree_getLeaves 5 0 _ H)).
Defined.

Lemma genConnectedDirectedGraph_edges_3_5 :
  1 ≤ 3 ∧ 3 - 1 ≤ 5 ∧ (3 = 1 → 5 = 0) ∧
  ∃ es w',
    genConnectedDirectedGraph 3 5 0%nat 0
      (tape_world [3; 1; 4; 1; 5; 9; 2; 6; 5; 3; 5]) = Ret es w' ∧
    Forall (λ e : edge, 0 ≤ e.1 < 3 ∧ 0 ≤ e.2 < 3 ∧ e.1 ≠ e.2) es.
Proof.
  assert (1 ≤ 3) as H1 by lia. assert (3 - 1 ≤ 5) as H2 by lia.
  assert (3 = 1 → 5 = 0) as H3 by lia.
  exact (conj H1 (conj H2 (conj H3
    (genConnectedDirectedGraph_edges 3 5 0%nat 0 _ H1 H2 H3)))).
Defined.

Lemma genConnectedDirectedGraph_rooted_tree_4 :
  1 ≤ 4 ∧
  ∃ es w' s0,
    genConnectedDirectedGraph 4 (4 - 1) 0%nat 0
      (tape_world [3; 1; 4; 1; 5; 9]) = Ret es w' ∧
    w_mem w' !! 0%nat = Some s0 ∧
    es.*2 ≡ₚ filter (λ v, v ≠ s0) (seqZ 0 4).
Proof.
  assert (1 ≤ 4) as H by lia.
  exact (conj H (genConnectedDirectedGraph_rooted_tree 4 0%nat 0 _ H)).
Defined.

Lemma genConnectedDirectedGraph_frame_3_5 :
  1 ≤ 3 ∧ 3 - 1 ≤ 5 ∧ (3 = 1 → 5 = 0) ∧
  ∃ es w' s0,
    genConnectedDirectedGraph 3 5 0%nat 0
      (tape_world [3; 1; 4; 1; 5; 9; 2; 6; 5; 3; 5]) = Ret es w' ∧
    w_mem w' = <[0%nat := s0]>
                 (w_mem (tape_world [3; 1; 4; 1; 5; 9; 2; 6; 5; 3; 5])) ∧
    w_cerr w' = w_cerr (tape_world [3; 1; 4; 1; 5; 9; 2; 6; 5; 3; 5]).
Proof.
  assert (1 ≤ 3) as H1 by lia. assert (3 - 1 ≤ 5) as H2 by lia.
  assert (3 = 1 → 5 = 0) as H3 by lia.
  exact (conj H1 (conj H2 (conj H3
    (genConnectedDirectedGraph_frame 3 5 0%nat 0 _ H1 H2 H3)))).
Defined.

Lemma genConnectedDirectedGraph_single_node_partial_2 :
  1 ≤ 2 ∧
  ∃ w', genConnectedDirectedGraph 1 2 0%nat 0 (tape_world [2; 7]) = Fatal w' ∧
        w_mem w' = <[0%nat := 0]> (w_mem (tape_world [2; 7])) ∧
        w_cerr w' = w_cerr (tape_world [2; 7]).
Proof.
  assert (1 ≤ 2) as H by lia.
  exact (conj H (genConnectedDirectedGraph_single_node_partial 2 0%nat 0 _ H)).
Defined.

Lemma genConnectedDirectedGraph_empty_perm_0 :
  -1 ≤ 0 ∧
  genConnectedDirectedGraph 0 0 0%nat 0 (tape_world [2; 7]) = Undef.
Proof.
  assert (-1 ≤ 0) as H by lia.
  exact (conj H (genConnectedDirectedGraph_empty_perm 0 0%nat 0 _ H)).
Defined.

Lemma genTree_simple_5 :
  0 ≤ 5 ∧
  ∃ es w',
    genTree 5 0 (tape_world [3; 1; 4; 1; 5; 9; 2; 6; 5; 3; 5]) = Ret es w' ∧
    Forall (λ e : edge, e.1 ≠ e.2) es ∧
    ∀ i j a b, i ≠ j → es !! i = Some a → es !! j = Some b →
               b ≠ a ∧ b ≠ prod_swap a.
Proof.
  assert (0 ≤ 5) as H by lia.
  exact (conj H (genTree_simple 5 0 _ H)).
Defined.

Lemma genConnectedDirectedGraph_getLeaves_3_5 :
  1 ≤ 3 ∧ 3 - 1 ≤ 5 ∧ (3 = 1 → 5 = 0) ∧
  ∃ es w1 leaf w2,
    genConnectedDirectedGraph 3 5 0%nat 0
      (tape_world [3; 1; 4; 1; 5; 9; 2; 6; 5; 3; 5]) = Ret es w1 ∧
    getLeaves es w1 = Ret leaf w2.
Proof.
  assert (1 ≤ 3) as H1 by lia. assert (3 - 1 ≤ 5) as H2 by lia.
  assert (3 = 1 → 5 = 0) as H3 by lia.
  exact (conj H1 (conj H2 (conj H3
    (genConnectedDirectedGraph_getLeaves 3 5 0%nat 0 _ H1 H2 H3)))).
Defined.
